(** * Crossword CSP solver (Optimization/crossword/generate.py)

    A shallow embedding of [CrosswordCreator]: node consistency, [revise],
    AC-3 and the backtracking search, with the properties the specification
    states about them.

    Python dictionaries are association lists in insertion order, Python sets
    are lists without repetition whose order is the iteration order, the
    order of a set that the code builds anew is a parameter of the model, and
    the methods of [CrosswordCreator] are computations in a
    state-and-exception monad whose state is [self.domains]. *)

From Stdlib Require Import List String Ascii Arith Bool Lia Permutation Sorted.
Import ListNotations.

Set Implicit Arguments.

(** ** Slots and the crossword structure *)

Inductive Direction := ACROSS | DOWN.

Module Var.
(** Modelled from the spec: the class [Variable] of crossword.py is not part
    of the sources at hand; a slot is identified by its start row, start
    column, direction and length, and two slots are equal iff all four
    fields match. *)
Record t := mk { i : nat; j : nat; direction : Direction; length : nat }.

Definition eq_dec (a b : t) : {a = b} + {a <> b}.
Proof. repeat decide equality. Defined.

Definition eqb (a b : t) : bool := if eq_dec a b then true else false.
End Var.

(** Modelled from the spec: the class [Crossword] of crossword.py is not part
    of the sources at hand.  Of the grid structure the solver reads the word
    set, the slot set and the overlap relation, which records for a pair of
    slots the index pair of the shared cell, or [None] for "no overlap".  The
    lists give the iteration order of the two sets; for the word set it is
    the order in which its copies, the initial domains, iterate. *)
Record Crossword := {
  words : list string;
  variables : list Var.t;
  overlaps : Var.t -> Var.t -> option (nat * nat)
}.

(** Modelled from the spec: two slots are neighbors iff their overlap entry is
    not "no overlap"; [neighbors] returns a fresh set on each call. *)
Definition neighbors (cw : Crossword) (var : Var.t) : list Var.t :=
  filter (fun v => negb (Var.eqb v var) &&
                   match overlaps cw var v with Some _ => true | None => false end)
         (variables cw).

(** ** Python dictionaries *)

Section Dict.
Variable V : Type.

Definition dict := list (Var.t * V).

Definition keys (d : dict) : list Var.t := map fst d.
Definition values (d : dict) : list V := map snd d.

(** [d[k]]; [None] stands for the KeyError. *)
Fixpoint lookup (k : Var.t) (d : dict) : option V :=
  match d with
  | [] => None
  | (k', v) :: d' => if Var.eqb k k' then Some v else lookup k d'
  end.

(** [k in d] *)
Definition mem (k : Var.t) (d : dict) : bool :=
  match lookup k d with Some _ => true | None => false end.

(** [d[k] = v]: an existing key keeps its position, a new one goes last. *)
Fixpoint update (k : Var.t) (v : V) (d : dict) : dict :=
  match d with
  | [] => [(k, v)]
  | (k', v') :: d' =>
      if Var.eqb k k' then (k', v) :: d' else (k', v') :: update k v d'
  end.

(** [d.pop(k, None)] *)
Fixpoint pop (k : Var.t) (d : dict) : dict :=
  match d with
  | [] => []
  | (k', v') :: d' => if Var.eqb k k' then d' else (k', v') :: pop k d'
  end.
End Dict.

Definition Domains := dict (list string).
Definition Assignment := dict string.

(** ** Exceptions and the state of a [CrosswordCreator] *)

Inductive exn := KeyError | IndexError | TypeError.

Inductive res (A : Type) :=
| Ok (a : A)
| Raise (e : exn)
| OutOfFuel.
Arguments Raise {A} e.
Arguments OutOfFuel {A}.

(** A method of [CrosswordCreator]: it reads and writes [self.domains]. *)
Definition M (A : Type) := Domains -> res (A * Domains).

Definition ret {A} (a : A) : M A := fun d => Ok (a, d).

Definition bind {A B} (m : M A) (f : A -> M B) : M B :=
  fun d => match m d with
           | Ok (a, d') => f a d'
           | Raise e => Raise e
           | OutOfFuel => OutOfFuel
           end.

Definition raise {A} (e : exn) : M A := fun _ => Raise e.
Definition out_of_fuel {A} : M A := fun _ => OutOfFuel.

(** A computation that may raise but does not touch [self.domains]. *)
Definition lift {A} (r : res A) : M A :=
  fun d => match r with
           | Ok a => Ok (a, d)
           | Raise e => Raise e
           | OutOfFuel => OutOfFuel
           end.

Notation "x <- m ;; k" := (bind m (fun x => k))
  (at level 61, m at next level, right associativity).
Notation "m ;;; k" := (bind m (fun _ => k))
  (at level 61, right associativity).

(** [self.domains[x]] *)
Definition dom_get (x : Var.t) : M (list string) :=
  fun d => match lookup x d with
           | Some ws => Ok (ws, d)
           | None => Raise KeyError
           end.

(** [self.domains[x] = ws] *)
Definition dom_set (x : Var.t) (ws : list string) : M unit :=
  fun d => Ok (tt, update x ws d).

(** Membership in a set of words. *)
Definition word_in (w : string) (ws : list string) : bool :=
  existsb (String.eqb w) ws.

(** [s.add(w)] *)
Definition set_add (w : string) (ws : list string) : list string :=
  if word_in w ws then ws else ws ++ [w].

(** ** The iteration order of a set

    A Python set iterates in the order of its hash table.  A set that is
    built from nothing, by [set()] and [add], does therefore not iterate in
    the order in which the words were added: its order follows from the
    hashes of the words, which for strings differ from run to run.  The model
    takes this order as a parameter: [fresh l] is the order in which the set
    iterates to which the words of [l] were added one after the other. *)
Definition set_order := list string -> list string.

(** [fresh] lists the words that were added, each of them once. *)
Definition iterates_set (fresh : set_order) : Prop :=
  forall l, NoDup l ->
    NoDup (fresh l) /\ forall w, In w (fresh l) <-> In w l.

(** Two such orders: the order of the additions, and its reverse. *)
Definition insertion_order : set_order := fun l => l.
Definition reverse_order : set_order := fun l => rev l.

(** ** The solver *)

Section Creator.
Variable cw : Crossword.
Variable fresh : set_order.

(** [__init__]: every slot starts with a copy of the whole word set. *)
Definition init_domains : Domains :=
  map (fun var => (var, words cw)) (variables cw).

(** *** enforce_node_consistency *)

Definition length_matches (var : Var.t) (word : string) : bool :=
  String.length word =? Var.length var.

(** The inner loop: [consistent_var] lists the words of matching length in
    the order in which they are added to the new set. *)
Fixpoint collect_consistent (var : Var.t) (ws consistent_var : list string)
  : list string :=
  match ws with
  | [] => consistent_var
  | word :: rest =>
      if length_matches var word
      then collect_consistent var rest (set_add word consistent_var)
      else collect_consistent var rest consistent_var
  end.

(** The outer loop.  [self.domains[var] = consistent_var] stores the new
    set: from then on the domain iterates in the order of that set. *)
Fixpoint node_loop (vars : list Var.t) : M unit :=
  match vars with
  | [] => ret tt
  | var :: rest =>
      ws <- dom_get var ;;
      dom_set var (fresh (collect_consistent var ws [])) ;;;
      node_loop rest
  end.

Definition enforce_node_consistency : M unit :=
  fun d => node_loop (keys d) d.

(** *** revise *)

(** The loop over [self.domains[y]]: an IndexError raised by either
    subscript is caught and the loop continues with the next word. *)
Fixpoint find_match (i j : nat) (x_word : string) (ys : list string) : bool :=
  match ys with
  | [] => false
  | y_word :: rest =>
      match String.get i x_word, String.get j y_word with
      | Some a, Some b =>
          if Ascii.eqb a b then true else find_match i j x_word rest
      | _, _ => find_match i j x_word rest
      end
  end.

(** The loop over [self.domains[x]]; the state of the loop is the pair
    [(inconsistent_x, revised)]. *)
Fixpoint revise_loop (i j : nat) (y : Var.t) (xs : list string)
         (st : list string * bool) : M (list string * bool) :=
  match xs with
  | [] => ret st
  | x_word :: rest =>
      ys <- dom_get y ;;
      if find_match i j x_word ys
      then revise_loop i j y rest st
      else revise_loop i j y rest (set_add x_word (fst st), true)
  end.

(** [self.domains[x] -= inconsistent_x] *)
Definition dom_subtract (x : Var.t) (inconsistent_x : list string) : M unit :=
  xs <- dom_get x ;;
  dom_set x (filter (fun w => negb (word_in w inconsistent_x)) xs).

Definition revise (x y : Var.t) : M bool :=
  match overlaps cw x y with
  | Some (i, j) =>
      xs <- dom_get x ;;
      st <- revise_loop i j y xs ([], false) ;;
      dom_subtract x (fst st) ;;;
      ret (snd st)
  | None => ret false
  end.

(** *** ac3 *)

Definition arc := (Var.t * Var.t)%type.

(** The worklist built when [arcs is None]. *)
Definition initial_arcs : list arc :=
  flat_map (fun var => map (fun neighbor => (var, neighbor)) (neighbors cw var))
           (variables cw).

(** [s.remove(y)]; [None] stands for the KeyError of an absent element. *)
Definition set_remove (y : Var.t) (s : list Var.t) : option (list Var.t) :=
  if existsb (Var.eqb y) s
  then Some (filter (fun v => negb (Var.eqb v y)) s)
  else None.

(** The [while queue] loop.  The result carries, next to the returned
    boolean, the contents of the list object [queue] when the loop is
    left. *)
Fixpoint ac3_loop (fuel : nat) (queue : list arc) : M (bool * list arc) :=
  match fuel with
  | 0 => out_of_fuel
  | S fuel' =>
      match queue with
      | [] => ret (true, [])
      | (x, y) :: queue' =>
          revised <- revise x y ;;
          if revised then
            xs <- dom_get x ;;
            if List.length xs =? 0 then ret (false, queue')
            else
              match set_remove y (neighbors cw x) with
              | None => raise KeyError
              | Some x_neighbors =>
                  ac3_loop fuel'
                    (queue' ++ map (fun neighbor => (neighbor, x)) x_neighbors)
              end
          else ac3_loop fuel' queue'
      end
  end.

(** [ac3(arcs)]: with [arcs = Some q] the worklist is the caller's list [q]
    itself ([queue = arcs]), so the second component of the result is what
    the caller finds in its list afterwards. *)
Definition ac3 (fuel : nat) (arcs : option (list arc)) : M (bool * list arc) :=
  match arcs with
  | None => ac3_loop fuel initial_arcs
  | Some q => ac3_loop fuel q
  end.

(** *** assignment_complete *)

Definition is_empty_word (w : string) : bool :=
  match w with EmptyString => true | String _ _ => false end.

Fixpoint complete_loop (vars : list Var.t) (assignment : Assignment) : bool :=
  match vars with
  | [] => true
  | var :: rest =>
      match lookup var assignment with
      | None => false
      | Some w => if is_empty_word w then false else complete_loop rest assignment
      end
  end.

Definition assignment_complete (assignment : Assignment) : bool :=
  complete_loop (variables cw) assignment.

(** *** consistent *)

(** [set(l)] *)
Fixpoint word_set (l : list string) : list string :=
  match l with
  | [] => []
  | w :: rest => set_add w (word_set rest)
  end.

(** The loop over the neighbors of [var]; [Ok false] is the early
    [return False], [Ok true] means that the loop ran to its end. *)
Fixpoint neighbors_agree (assignment : Assignment) (var : Var.t) (word : string)
         (ns : list Var.t) : res bool :=
  match ns with
  | [] => Ok true
  | neighbor :: rest =>
      match overlaps cw var neighbor with
      | None => Raise TypeError
      | Some (i, j) =>
          match lookup neighbor assignment with
          | Some neighbor_word =>
              match String.get i word, String.get j neighbor_word with
              | Some a, Some b =>
                  if Ascii.eqb a b
                  then neighbors_agree assignment var word rest
                  else Ok false
              | _, _ => Raise IndexError
              end
          | None => neighbors_agree assignment var word rest
          end
      end
  end.

Fixpoint consistent_loop (assignment : Assignment) (vars : list Var.t)
  : res bool :=
  match vars with
  | [] => Ok true
  | var :: rest =>
      match lookup var assignment with
      | None => Raise KeyError
      | Some word =>
          if negb (String.length word =? Var.length var) then Ok false
          else
            match neighbors_agree assignment var word (neighbors cw var) with
            | Ok true => consistent_loop assignment rest
            | other => other
            end
      end
  end.

Definition consistent (assignment : Assignment) : res bool :=
  if negb (List.length assignment =?
           List.length (word_set (values assignment)))
  then Ok false
  else consistent_loop assignment (keys assignment).

(** *** order_domain_values *)

(** The loop over [self.domains[neighbor]]; [eliminated] is the running
    counter. *)
Fixpoint count_conflicts (var neighbor : Var.t) (word : string)
         (nws : list string) (eliminated : nat) : res nat :=
  match nws with
  | [] => Ok eliminated
  | neighbor_word :: rest =>
      match overlaps cw var neighbor with
      | None => Raise TypeError
      | Some (i, j) =>
          match String.get i word, String.get j neighbor_word with
          | Some a, Some b =>
              count_conflicts var neighbor word rest
                (if Ascii.eqb a b then eliminated else eliminated + 1)
          | _, _ => Raise IndexError
          end
      end
  end.

(** The loop over the neighbors of [var]. *)
Fixpoint count_eliminated (var : Var.t) (assignment : Assignment)
         (word : string) (ns : list Var.t) (eliminated : nat) : M nat :=
  match ns with
  | [] => ret eliminated
  | neighbor :: rest =>
      if mem neighbor assignment
      then count_eliminated var assignment word rest eliminated
      else
        nws <- dom_get neighbor ;;
        eliminated' <- lift (count_conflicts var neighbor word nws eliminated) ;;
        count_eliminated var assignment word rest eliminated'
  end.

(** The loop over [self.domains[var]], appending to [eliminations]. *)
Fixpoint eliminations_loop (var : Var.t) (assignment : Assignment)
         (ns : list Var.t) (ws : list string)
         (eliminations : list (string * nat)) : M (list (string * nat)) :=
  match ws with
  | [] => ret eliminations
  | word :: rest =>
      eliminated <- count_eliminated var assignment word ns 0 ;;
      eliminations_loop var assignment ns rest
        (eliminations ++ [(word, eliminated)])
  end.

(** [list.sort(key=...)] is stable: entries with equal keys keep their
    relative order. *)
Fixpoint insert_by_count (e : string * nat) (l : list (string * nat))
  : list (string * nat) :=
  match l with
  | [] => [e]
  | e' :: rest =>
      if snd e <=? snd e' then e :: e' :: rest
      else e' :: insert_by_count e rest
  end.

Definition sort_by_count (l : list (string * nat)) : list (string * nat) :=
  fold_right insert_by_count [] l.

Definition order_domain_values (var : Var.t) (assignment : Assignment)
  : M (list string) :=
  ws <- dom_get var ;;
  eliminations <- eliminations_loop var assignment (neighbors cw var) ws [] ;;
  ret (map fst (sort_by_count eliminations)).

(** *** select_unassigned_variable *)

(** The loop over [self.crossword.variables]; [min = None] is [math.inf]. *)
Fixpoint select_loop (assignment : Assignment) (vars : list Var.t)
         (min : option nat) (min_var : option Var.t) : M (option Var.t) :=
  match vars with
  | [] => ret min_var
  | var :: rest =>
      if mem var assignment then select_loop assignment rest min min_var
      else
        ws <- dom_get var ;;
        match min with
        | None => select_loop assignment rest (Some (List.length ws)) (Some var)
        | Some m =>
            if List.length ws <? m
            then select_loop assignment rest (Some (List.length ws)) (Some var)
            else if List.length ws =? m
            then
              match min_var with
              | None => raise KeyError
              | Some mv =>
                  if List.length (neighbors cw mv) <? List.length (neighbors cw var)
                  then select_loop assignment rest min (Some var)
                  else select_loop assignment rest min min_var
              end
            else select_loop assignment rest min min_var
        end
  end.

Definition select_unassigned_variable (assignment : Assignment)
  : M (option Var.t) :=
  select_loop assignment (variables cw) None None.

(** *** backtrack *)

(** The loop over the ordered values.  [assignment] is one dictionary object
    shared by all calls: the result carries, next to the returned value, the
    contents of that dictionary when the call returns.  The entry for [var]
    is popped only after a recursive call that returned [None]. *)
Fixpoint try_values
         (recurse : Assignment -> M (option Assignment * Assignment))
         (var : Var.t) (vals : list string) (assignment : Assignment)
  : M (option Assignment * Assignment) :=
  match vals with
  | [] => ret (None, assignment)
  | value :: rest =>
      let assignment1 := update var value assignment in
      ok <- lift (consistent assignment1) ;;
      if ok then
        r <- recurse assignment1 ;;
        match fst r with
        | Some result => ret (Some result, snd r)
        | None => try_values recurse var rest (pop var (snd r))
        end
      else try_values recurse var rest assignment1
  end.

Fixpoint backtrack (fuel : nat) (assignment : Assignment)
  : M (option Assignment * Assignment) :=
  match fuel with
  | 0 => out_of_fuel
  | S fuel' =>
      if assignment_complete assignment then ret (Some assignment, assignment)
      else
        var <- select_unassigned_variable assignment ;;
        match var with
        | None => raise KeyError
        | Some var =>
            vals <- order_domain_values var assignment ;;
            try_values (backtrack fuel') var vals assignment
        end
  end.

(** *** solve *)

Definition solve (fuel : nat) : M (option Assignment) :=
  enforce_node_consistency ;;;
  _ <- ac3 fuel None ;;
  r <- backtrack fuel [] ;;
  ret (fst r).

End Creator.

(** ** letter_grid *)

(** The grid of letters; [None] is an empty cell. *)
Definition grid := list (list (option ascii)).

(** [[[None for _ in range(width)] for _ in range(height)]] *)
Definition blank_grid (height width : nat) : grid :=
  repeat (repeat None width) height.

(** [l[n] = x] on a list that has an index [n]. *)
Fixpoint list_set (A : Type) (n : nat) (x : A) (l : list A) : list A :=
  match l, n with
  | [], _ => []
  | _ :: rest, 0 => x :: rest
  | y :: rest, S n' => y :: list_set n' x rest
  end.

(** The cell of the [k]-th letter of a slot. *)
Definition cell (variable : Var.t) (k : nat) : nat * nat :=
  (Var.i variable +
     match Var.direction variable with DOWN => k | ACROSS => 0 end,
   Var.j variable +
     match Var.direction variable with ACROSS => k | DOWN => 0 end).

(** [letters[i][j] = c]; either subscript out of range raises IndexError. *)
Definition grid_set (letters : grid) (i j : nat) (c : ascii) : res grid :=
  match nth_error letters i with
  | None => Raise IndexError
  | Some row =>
      if j <? List.length row
      then Ok (list_set i (list_set j (Some c) row) letters)
      else Raise IndexError
  end.

(** [letters[i][j]] *)
Definition grid_get (letters : grid) (i j : nat) : option (option ascii) :=
  match nth_error letters i with
  | None => None
  | Some row => nth_error row j
  end.

(** The loop [for k in range(len(word))], from the letter [k] on; [word] is
    what is left of the word from that letter. *)
Fixpoint write_word (variable : Var.t) (word : string) (k : nat)
         (letters : grid) : res grid :=
  match word with
  | EmptyString => Ok letters
  | String c rest =>
      match grid_set letters (fst (cell variable k)) (snd (cell variable k)) c with
      | Ok letters' => write_word variable rest (S k) letters'
      | Raise e => Raise e
      | OutOfFuel => OutOfFuel
      end
  end.

(** The loop over [assignment.items()]. *)
Fixpoint write_entries (entries : list (Var.t * string)) (letters : grid)
  : res grid :=
  match entries with
  | [] => Ok letters
  | (variable, word) :: rest =>
      match write_word variable word 0 letters with
      | Ok letters' => write_entries rest letters'
      | Raise e => Raise e
      | OutOfFuel => OutOfFuel
      end
  end.

(** [letter_grid(assignment)]; the width and the height of the crossword are
    taken as parameters. *)
Definition letter_grid (height width : nat) (assignment : Assignment)
  : res grid :=
  write_entries assignment (blank_grid height width).

(** The letters a word puts on the grid, with their cells, in the order in
    which they are written. *)
Fixpoint word_cells (variable : Var.t) (word : string) (k : nat)
  : list (nat * nat * ascii) :=
  match word with
  | EmptyString => []
  | String c rest =>
      (fst (cell variable k), snd (cell variable k), c)
        :: word_cells variable rest (S k)
  end.

(** All the letters an assignment puts on the grid. *)
Definition writes (assignment : Assignment) : list (nat * nat * ascii) :=
  flat_map (fun e => word_cells (fst e) (snd e) 0) assignment.

(** The same writes as one sequence. *)
Fixpoint write_all (ws : list (nat * nat * ascii)) (letters : grid) : res grid :=
  match ws with
  | [] => Ok letters
  | (i, j, c) :: rest =>
      match grid_set letters i j c with
      | Ok letters' => write_all rest letters'
      | Raise e => Raise e
      | OutOfFuel => OutOfFuel
      end
  end.

(** A grid of [height] rows of [width] cells. *)
Definition has_shape (height width : nat) (g : grid) : Prop :=
  List.length g = height /\ forall row, In row g -> List.length row = width.

(** ** A worked example *)

Module Example.
(** Two crossing slots on the grid

      #.
      ##

    (rows 0 and 1, [#] fillable): [B] runs down column 0 from row 0, [A]
    runs across row 1 from column 0; they share the cell (1, 0), which is
    the first cell of [A] and the second of [B]. *)
Definition A : Var.t := Var.mk 1 0 ACROSS 2.
Definition B : Var.t := Var.mk 0 0 DOWN 2.

Definition ov (x y : Var.t) : option (nat * nat) :=
  if Var.eqb x A && Var.eqb y B then Some (0, 1)
  else if Var.eqb x B && Var.eqb y A then Some (1, 0)
  else None.

Definition cw : Crossword :=
  {| words := ["DB"; "AA"; "BC"]%string; variables := [A; B]; overlaps := ov |}.

(** The store of [cw] after node consistency, with sets that iterate in the
    order of the additions, and after AC-3. *)
Definition filtered : Domains :=
  [(A, ["DB"; "AA"; "BC"]%string); (B, ["DB"; "AA"; "BC"]%string)].
Definition pruned : Domains :=
  [(A, ["AA"; "BC"]%string); (B, ["DB"; "AA"]%string)].

(** A filling of [cw]: D over B C. *)
Definition solution : Assignment := [(A, "BC"%string); (B, "DB"%string)].

(** What the search leaves in the dictionary it was given empty. *)
Definition leftover : Assignment := [(B, "AA"%string); (A, "BC"%string)].

(** A store in which the only word of [A] has no partner in [B]. *)
Definition doomed : Domains := [(A, ["DB"%string]); (B, ["AA"%string])].

(** Two isolated slots of length 3 and a single word to fill them. *)
Definition T1 : Var.t := Var.mk 0 0 ACROSS 3.
Definition T2 : Var.t := Var.mk 2 0 ACROSS 3.

Definition twin : Crossword :=
  {| words := ["CAT"%string];
     variables := [T1; T2];
     overlaps := fun _ _ => None |}.

(** The slots of [cw] with the same words read in another order. *)
Definition cw2 : Crossword :=
  {| words := ["AA"; "DB"; "BC"]%string; variables := [A; B]; overlaps := ov |}.

(** One isolated slot of length 4. *)
Definition S : Var.t := Var.mk 0 0 ACROSS 4.

(** A slot of length 4 across and a slot of length 3 down from the same
    cell, with words of both lengths. *)
Definition D3 : Var.t := Var.mk 0 0 DOWN 3.

Definition mixed : Crossword :=
  {| words := ["WORD"; "CAT"; "GAME"; "WIG"]%string;
     variables := [S; D3];
     overlaps := fun x y =>
       if Var.eqb x S && Var.eqb y D3 then Some (0, 0)
       else if Var.eqb x D3 && Var.eqb y S then Some (0, 0)
       else None |}.

(** The same slots with words of length 3 only. *)
Definition short : Crossword :=
  {| words := ["CAT"; "WIG"]%string;
     variables := [S; D3];
     overlaps := overlaps mixed |}.

Definition single : Crossword :=
  {| words := ["WORD"; "CAT"; "GAME"]%string;
     variables := [S];
     overlaps := fun _ _ => None |}.
End Example.

(** ** Specification predicates *)

(** What node consistency makes of the domain [ws] of slot [s]. *)
Definition node_filtered (s : Var.t) (ws ws' : list string) : Prop :=
  NoDup ws' /\
  forall w, In w ws' <-> In w ws /\ String.length w = Var.length s.

(** The domain of [y], empty when [y] is no key of the store. *)
Definition dom_of (d : Domains) (y : Var.t) : list string :=
  match lookup y d with Some ws => ws | None => [] end.

(** The [i]-th character of [wx] exists and is the [j]-th character of [wy]. *)
Definition agree (i j : nat) (wx wy : string) : Prop :=
  exists c, String.get i wx = Some c /\ String.get j wy = Some c.

(** The word [w] of [x] has a partner in the domain of [y]. *)
Definition supported (d : Domains) (i j : nat) (y : Var.t) (w : string) : bool :=
  find_match i j w (dom_of d y).

(** Number of candidate words in the whole store. *)
Definition size (d : Domains) : nat :=
  list_sum (map (fun e => List.length (snd e)) d).

(** The index pairs of the overlap relation lie inside the two slots, and
    no slot is empty. *)
Definition well_formed (cw : Crossword) : Prop :=
  (forall x y i j, overlaps cw x y = Some (i, j) ->
     i < Var.length x /\ j < Var.length y) /\
  (forall v, In v (variables cw) -> 0 < Var.length v).

(** Every word of every domain has the length of its slot. *)
Definition lengths_fit (d : Domains) : Prop :=
  forall v ws w, lookup v d = Some ws -> In w ws ->
    String.length w = Var.length v.

(** Every word of the assignment has the length of its slot. *)
Definition fits (a : Assignment) : Prop :=
  forall v w, In (v, w) a -> String.length w = Var.length v.

Section Predicates.
Variable cw : Crossword.

(** A complete assignment that satisfies the invariants of the data model. *)
Record valid_solution (a : Assignment) : Prop := {
  vs_one_word : NoDup (keys a);
  vs_slots : forall v, In v (keys a) -> In v (variables cw);
  vs_complete : forall v, In v (variables cw) -> exists w, lookup v a = Some w;
  vs_distinct : NoDup (values a);
  vs_length : forall v w, lookup v a = Some w -> String.length w = Var.length v;
  vs_overlap : forall x y i j wx wy,
      In x (variables cw) -> In y (variables cw) -> x <> y ->
      overlaps cw x y = Some (i, j) ->
      lookup x a = Some wx -> lookup y a = Some wy ->
      agree i j wx wy
}.

(** Every word of the assignment is a candidate of its slot. *)
Definition drawn_from (d : Domains) (a : Assignment) : Prop :=
  forall v w, lookup v a = Some w -> In w (dom_of d v).

(** The arc [(x, y)] with overlap [(i, j)] is consistent in [d]. *)
Definition arc_consistent (d : Domains) (x y : Var.t) (i j : nat) : Prop :=
  forall w, In w (dom_of d x) ->
    exists wy, In wy (dom_of d y) /\ agree i j w wy.

(** The overlap relation is symmetric under index swap. *)
Definition overlaps_symmetric : Prop :=
  forall x y i j, overlaps cw x y = Some (i, j) -> overlaps cw y x = Some (j, i).

(** One iteration of the [while queue] loop that goes on to the next. *)
Inductive ac3_step : list arc * Domains -> list arc * Domains -> Prop :=
| step_unrevised x y queue d d1 :
    revise cw x y d = Ok (false, d1) ->
    ac3_step ((x, y) :: queue, d) (queue, d1)
| step_revised x y queue d d1 w ws :
    revise cw x y d = Ok (true, d1) ->
    lookup x d1 = Some (w :: ws) ->
    In y (neighbors cw x) ->
    ac3_step ((x, y) :: queue, d)
             (queue ++ map (fun z => (z, x))
                           (filter (fun z => negb (Var.eqb z y)) (neighbors cw x)),
              d1).

(** The worklist that [ac3] starts from. *)
Definition worklist (arcs : option (list arc)) : list arc :=
  match arcs with None => initial_arcs cw | Some q => q end.

(** Every arc between overlapping slots is waiting in the worklist or is
    consistent in the store. *)
Definition pending_or_consistent (s : list arc * Domains) : Prop :=
  forall x y i j,
    In x (variables cw) -> In y (variables cw) -> x <> y ->
    overlaps cw x y = Some (i, j) ->
    In (x, y) (fst s) \/ arc_consistent (snd s) x y i j.

(** The arcs of the worklist join distinct slots of the crossword. *)
Definition proper_arcs (q : list arc) : Prop :=
  forall x y, In (x, y) q ->
    In x (variables cw) /\ In y (variables cw) /\ x <> y.

(** A dictionary whose keys are slots of the crossword, each once. *)
Definition slots_assigned_once (a : Assignment) : Prop :=
  NoDup (keys a) /\ forall v, In v (keys a) -> In v (variables cw).

(** What a call of the search promises about its result. *)
Definition returns_valid
           (recurse : Assignment -> M (option Assignment * Assignment)) : Prop :=
  forall a d r a' d',
    slots_assigned_once a -> consistent cw a = Ok true ->
    recurse a d = Ok ((r, a'), d') ->
    slots_assigned_once a' /\
    forall result, r = Some result ->
      result = a' /\ assignment_complete cw result = true /\
      consistent cw result = Ok true.

(** [word[i] != neighbor_word[j]] at the overlap of [var] and [neighbor];
    [false] where the code would raise instead. *)
Definition differs (var neighbor : Var.t) (word neighbor_word : string) : bool :=
  match overlaps cw var neighbor with
  | Some (i, j) =>
      match String.get i word, String.get j neighbor_word with
      | Some a, Some b => negb (Ascii.eqb a b)
      | _, _ => false
      end
  | None => false
  end.

(** What [word] rules out of the domain of one neighbor of [var]. *)
Definition ruled_out (d : Domains) (a : Assignment) (var : Var.t)
           (word : string) (neighbor : Var.t) : nat :=
  if mem neighbor a then 0
  else List.length (filter (differs var neighbor word) (dom_of d neighbor)).

(** The number of candidates of the unassigned neighbors of [var] that the
    value [word] rules out. *)
Definition eliminated (d : Domains) (a : Assignment) (var : Var.t)
           (word : string) : nat :=
  list_sum (map (ruled_out d a var word) (neighbors cw var)).

(** The number of slots of the crossword that are no key of [a]. *)
Definition unassigned (a : Assignment) : nat :=
  List.length (filter (fun v => negb (mem v a)) (variables cw)).

(** The state [(min, min_var)] of the loop of [select_unassigned_variable]
    is the best choice among the slots [seen] so far: a slot outside the
    assignment with the fewest candidates, and among those with the most
    neighbors. *)
Definition best_choice (d : Domains) (a : Assignment) (seen : Var.t -> Prop)
           (min : option nat) (min_var : option Var.t) : Prop :=
  match min_var with
  | None => min = None /\ forall u, seen u -> mem u a = true
  | Some mv =>
      min = Some (List.length (dom_of d mv)) /\
      seen mv /\ mem mv a = false /\
      forall u, seen u -> mem u a = false ->
        List.length (dom_of d mv) <= List.length (dom_of d u) /\
        (List.length (dom_of d u) = List.length (dom_of d mv) ->
         List.length (neighbors cw u) <= List.length (neighbors cw mv))
  end.

Inductive ac3_steps : list arc * Domains -> list arc * Domains -> Prop :=
| steps_refl s : ac3_steps s s
| steps_step s1 s2 s3 : ac3_step s1 s2 -> ac3_steps s2 s3 -> ac3_steps s1 s3.
End Predicates.

(** * Properties *)

Unset Implicit Arguments.

Module VarFacts.
Lemma eqb_eq a b : Var.eqb a b = true <-> a = b.
Proof. unfold Var.eqb; destruct (Var.eq_dec a b); split; congruence. Qed.

Lemma eqb_neq a b : Var.eqb a b = false <-> a <> b.
Proof. unfold Var.eqb; destruct (Var.eq_dec a b); split; congruence. Qed.

Lemma eqb_refl a : Var.eqb a a = true.
Proof. apply eqb_eq; reflexivity. Qed.
End VarFacts.

(** ** Dictionaries and the monad: basic facts *)

Section DictFacts.
Variable V : Type.
Implicit Types (d : dict V) (k : Var.t) (v : V).

Lemma lookup_update_eq k v d : lookup k (update k v d) = Some v.
Proof.
  induction d as [|[k' v'] d IH]; simpl.
  - now rewrite VarFacts.eqb_refl.
  - destruct (Var.eqb k k') eqn:E; simpl; rewrite E; auto.
Qed.

Lemma lookup_update_neq k k' v d :
  k <> k' -> lookup k' (update k v d) = lookup k' d.
Proof.
  intros N. induction d as [|[k0 v0] d IH]; simpl.
  - destruct (Var.eqb k' k) eqn:E; auto.
    apply VarFacts.eqb_eq in E; congruence.
  - destruct (Var.eqb k k0) eqn:E; simpl.
    + apply VarFacts.eqb_eq in E; subst k0.
      destruct (Var.eqb k' k) eqn:E'; auto.
      apply VarFacts.eqb_eq in E'; congruence.
    + now rewrite IH.
Qed.

Lemma lookup_In_keys k d : lookup k d <> None <-> In k (keys d).
Proof.
  induction d as [|[k' v'] d IH]; simpl.
  - split; [congruence | tauto].
  - destruct (Var.eqb k k') eqn:E.
    + apply VarFacts.eqb_eq in E; subst. split; [auto | congruence].
    + apply VarFacts.eqb_neq in E. rewrite IH. split; [auto | intros [?|?]; congruence].
Qed.

Lemma lookup_In k v d : lookup k d = Some v -> In (k, v) d.
Proof.
  induction d as [|[k' v'] d IH]; simpl; [congruence|].
  destruct (Var.eqb k k') eqn:E.
  - apply VarFacts.eqb_eq in E; subst. intros [= ->]; auto.
  - auto.
Qed.

Lemma keys_update_present k v d :
  lookup k d <> None -> keys (update k v d) = keys d.
Proof.
  induction d as [|[k' v'] d IH]; simpl; [congruence|].
  destruct (Var.eqb k k') eqn:E; simpl; auto.
  intros H; now rewrite IH.
Qed.

Lemma keys_update_absent k v d :
  lookup k d = None -> keys (update k v d) = keys d ++ [k].
Proof.
  induction d as [|[k' v'] d IH]; simpl; auto.
  destruct (Var.eqb k k') eqn:E; simpl; [congruence|].
  intros H; now rewrite IH.
Qed.

Lemma mem_true k d : mem k d = true <-> In k (keys d).
Proof.
  unfold mem. rewrite <- lookup_In_keys.
  destruct (lookup k d); split; congruence.
Qed.

Lemma mem_false k d : mem k d = false <-> ~ In k (keys d).
Proof.
  rewrite <- mem_true. destruct (mem k d); split; congruence.
Qed.
End DictFacts.

Lemma bind_Ok A B (m : M A) (f : A -> M B) d b d' :
  bind m f d = Ok (b, d') ->
  exists a d1, m d = Ok (a, d1) /\ f a d1 = Ok (b, d').
Proof.
  unfold bind. destruct (m d) as [[a d1]| |]; try discriminate. eauto.
Qed.

Lemma dom_get_Ok x d ws d' :
  dom_get x d = Ok (ws, d') -> lookup x d = Some ws /\ d' = d.
Proof.
  unfold dom_get. destruct (lookup x d); intros [=]; subst; auto.
Qed.

Lemma dom_set_Ok x ws d u d' :
  dom_set x ws d = Ok (u, d') -> d' = update x ws d.
Proof. unfold dom_set. now intros [=]. Qed.

Lemma lift_Ok A (r : res A) d a d' :
  lift r d = Ok (a, d') -> r = Ok a /\ d' = d.
Proof. unfold lift. destruct r; intros [=]; subst; auto. Qed.

Lemma ret_Ok A (a : A) d b d' : ret a d = Ok (b, d') -> b = a /\ d' = d.
Proof. unfold ret. intros [=]; auto. Qed.

(** Inversion of a successful run, one operation at a time. *)
Ltac inv_step H :=
  match type of H with
  | bind _ _ _ = Ok _ =>
      let a := fresh "a" in let d1 := fresh "d" in
      let H1 := fresh "H" in let H2 := fresh "H" in
      apply bind_Ok in H; destruct H as (a & d1 & H1 & H2);
      inv_step H1; try inv_step H2
  | dom_get _ _ = Ok _ =>
      let E := fresh "E" in
      apply dom_get_Ok in H; destruct H as [H E]; subst
  | dom_set _ _ _ = Ok _ => apply dom_set_Ok in H; subst
  | lift _ _ = Ok _ =>
      let E := fresh "E" in apply lift_Ok in H; destruct H as [H E]; subst
  | ret _ _ = Ok _ =>
      let E := fresh "E" in apply ret_Ok in H; destruct H as [H E]; subst
  | raise _ _ = Ok _ => discriminate H
  | out_of_fuel _ = Ok _ => discriminate H
  | _ => idtac
  end.

(** ** Sets of words *)

Lemma word_in_In w ws : word_in w ws = true <-> In w ws.
Proof.
  unfold word_in. rewrite existsb_exists. split.
  - intros (x & Hx & E). apply String.eqb_eq in E. now subst.
  - intros H. exists w. split; auto. apply String.eqb_refl.
Qed.

Lemma word_in_not_In w ws : word_in w ws = false <-> ~ In w ws.
Proof.
  rewrite <- word_in_In. destruct (word_in w ws); split; congruence.
Qed.

Lemma set_add_In w ws x : In x (set_add w ws) <-> x = w \/ In x ws.
Proof.
  unfold set_add. destruct (word_in w ws) eqn:E.
  - apply word_in_In in E. split; [auto | intros [->|]; auto].
  - rewrite in_app_iff. simpl. split; intros H.
    + destruct H as [|[|[]]]; auto.
    + destruct H; auto.
Qed.

Lemma set_add_NoDup w ws : NoDup ws -> NoDup (set_add w ws).
Proof.
  unfold set_add. destruct (word_in w ws) eqn:E; auto.
  apply word_in_not_In in E. intros H.
  apply NoDup_app; auto.
  - repeat constructor; simpl; tauto.
  - intros a Ha [<-|[]]. contradiction.
Qed.

Lemma insertion_order_ok : iterates_set insertion_order.
Proof. intros l ND. split; [exact ND | tauto]. Qed.

Lemma reverse_order_ok : iterates_set reverse_order.
Proof.
  intros l ND. unfold reverse_order. split.
  - now apply NoDup_rev.
  - intros w. symmetry. apply in_rev.
Qed.

(** ** Node consistency *)

Section NodeConsistency.
Variable fresh : set_order.
Hypothesis fresh_ok : iterates_set fresh.

Lemma collect_consistent_In var ws : forall acc w,
  In w (collect_consistent var ws acc) <->
  In w acc \/ (In w ws /\ String.length w = Var.length var).
Proof.
  induction ws as [|word rest IH]; intros acc w; simpl.
  - tauto.
  - unfold length_matches at 1. destruct (Nat.eqb_spec (String.length word) (Var.length var)) as [E|E];
      rewrite IH; [rewrite set_add_In|].
    + split.
      * intros [[->|H]|[H1 H2]]; auto.
      * intros [H|[[<-|H1] H2]]; auto.
    + split.
      * intros [H|[H1 H2]]; auto.
      * intros [H|[[<-|H1] H2]]; auto. contradiction.
Qed.

Lemma collect_consistent_NoDup var ws : forall acc,
  NoDup acc -> NoDup (collect_consistent var ws acc).
Proof.
  induction ws as [|word rest IH]; intros acc ND; simpl; auto.
  destruct (length_matches var word); auto.
  apply IH. now apply set_add_NoDup.
Qed.

Lemma collect_node_filtered s ws :
  node_filtered s ws (fresh (collect_consistent s ws [])).
Proof.
  destruct (fresh_ok (collect_consistent s ws []))
    as [ND Hin]; [apply collect_consistent_NoDup; constructor|].
  split; [exact ND|].
  intros w. rewrite Hin, collect_consistent_In. simpl. tauto.
Qed.

Lemma node_filtered_trans s a b c :
  node_filtered s a b -> node_filtered s b c -> node_filtered s a c.
Proof.
  intros [_ M1] [N2 M2]. split; [exact N2|].
  intros w. rewrite M2, M1. tauto.
Qed.

Lemma node_loop_spec vars : forall d,
  (forall v, In v vars -> lookup v d <> None) ->
  exists d', node_loop fresh vars d = Ok (tt, d') /\
             keys d' = keys d /\
             forall s ws, lookup s d = Some ws ->
               exists ws', lookup s d' = Some ws' /\
                           (In s vars -> node_filtered s ws ws') /\
                           (~ In s vars -> ws' = ws).
Proof.
  induction vars as [|var rest IH]; intros d Hk; simpl.
  - exists d. repeat split; auto. intros s ws H. exists ws. tauto.
  - destruct (lookup var d) as [wv|] eqn:Ev; [|exfalso; apply (Hk var); simpl; auto].
    set (d1 := update var (fresh (collect_consistent var wv [])) d).
    destruct (IH d1) as (d' & Hrun & Hkeys & Hdom).
    { intros v Hv. unfold d1. destruct (Var.eq_dec var v) as [<-|N].
      - now rewrite lookup_update_eq.
      - rewrite lookup_update_neq by auto. apply Hk; simpl; auto. }
    exists d'. split; [|split].
    + unfold bind, dom_get, dom_set. rewrite Ev. exact Hrun.
    + rewrite Hkeys. unfold d1. apply keys_update_present. congruence.
    + intros s ws Hs. destruct (Var.eq_dec var s) as [<-|N].
      * rewrite Ev in Hs. injection Hs as ->.
        destruct (Hdom var (fresh (collect_consistent var ws [])))
          as (ws' & L & Hin & Hout).
        { unfold d1. apply lookup_update_eq. }
        exists ws'. split; [exact L|]. split; [|intros H; exfalso; apply H; simpl; auto].
        intros _. destruct (in_dec Var.eq_dec var rest) as [I|I].
        -- eapply node_filtered_trans; [apply collect_node_filtered | auto].
        -- rewrite (Hout I). apply collect_node_filtered.
      * destruct (Hdom s ws) as (ws' & L & Hin & Hout).
        { unfold d1. now rewrite lookup_update_neq. }
        exists ws'. split; [exact L|]. split.
        -- intros [?|I]; [congruence | auto].
        -- intros H. apply Hout. intros I. apply H; simpl; auto.
Qed.

(** C7 (node-consistency exactness): in whatever order the sets that it
    builds iterate, [enforce_node_consistency] returns, keeps the slots of
    the domain store, and replaces the domain of every slot [s] by exactly
    those of its words whose length is [s.length]: a word is in the new
    domain iff it was in the old one and has the length of the slot (so
    every remaining word has the right length and no word of the right
    length is removed), and it is there once. *)
Theorem enforce_node_consistency_exact (d : Domains) :
  exists d', enforce_node_consistency fresh d = Ok (tt, d') /\
             keys d' = keys d /\
             forall s ws, lookup s d = Some ws ->
               exists ws', lookup s d' = Some ws' /\
                 NoDup ws' /\
                 forall w, In w ws' <->
                           In w ws /\ String.length w = Var.length s.
Proof.
  destruct (node_loop_spec (keys d) d) as (d' & Hrun & Hkeys & Hdom).
  { intros v Hv. now apply lookup_In_keys. }
  exists d'. split; [exact Hrun|]. split; [exact Hkeys|].
  intros s ws Hs. destruct (Hdom s ws Hs) as (ws' & L & Hin & _).
  exists ws'. split; [exact L|]. apply Hin.
  apply lookup_In_keys. congruence.
Qed.

End NodeConsistency.

(** ** revise *)

Section Revise.
Variable cw : Crossword.

Lemma dom_of_lookup d x ws : lookup x d = Some ws -> dom_of d x = ws.
Proof. unfold dom_of. now intros ->. Qed.

Lemma dom_of_update_eq d x ws : dom_of (update x ws d) x = ws.
Proof. unfold dom_of. now rewrite lookup_update_eq. Qed.

Lemma dom_of_update_neq d x z ws : x <> z -> dom_of (update x ws d) z = dom_of d z.
Proof. intros N. unfold dom_of. now rewrite lookup_update_neq. Qed.

Lemma update_same (V : Type) x (v : V) (d : dict V) :
  lookup x d = Some v -> update x v d = d.
Proof.
  induction d as [|[k' v'] d IH]; simpl; [congruence|].
  destruct (Var.eqb x k') eqn:E.
  - now intros [= ->].
  - intros H. now rewrite IH.
Qed.

Lemma find_match_agree i j w ys :
  find_match i j w ys = true <-> exists wy, In wy ys /\ agree i j w wy.
Proof.
  induction ys as [|y ys IH]; simpl.
  - split; [discriminate | intros (? & [] & _)].
  - destruct (String.get i w) as [a|] eqn:Ea.
    + destruct (String.get j y) as [b|] eqn:Eb.
      * destruct (Ascii.eqb a b) eqn:E.
        -- apply Ascii.eqb_eq in E; subst b. split; auto.
           intros _. exists y. split; auto. exists a; auto.
        -- rewrite IH. split.
           ++ intros (wy & I & G). exists wy; auto.
           ++ intros (wy & [<-|I] & G); [|exists wy; auto].
              destruct G as (c & G1 & G2).
              rewrite Ea in G1. rewrite Eb in G2.
              injection G1 as <-. injection G2 as <-.
              rewrite Ascii.eqb_refl in E. discriminate.
      * rewrite IH. split.
        -- intros (wy & I & G). exists wy; auto.
        -- intros (wy & [<-|I] & G); [|exists wy; auto].
           destruct G as (c & _ & G2). congruence.
    + rewrite IH. split.
      * intros (wy & I & G). exists wy; auto.
      * intros (wy & _ & (c & G1 & _)). congruence.
Qed.

Lemma agree_sym i j wx wy : agree i j wx wy -> agree j i wy wx.
Proof. intros (c & H1 & H2). exists c; auto. Qed.

Lemma supported_agree d i j y w :
  supported d i j y w = true <->
  exists wy, In wy (dom_of d y) /\ agree i j w wy.
Proof. apply find_match_agree. Qed.

(** The loop over the words of [x] leaves the store alone, collects the
    unsupported words and sets the flag iff there is one. *)
Lemma revise_loop_Ok i j y xs : forall st d st' d',
  revise_loop i j y xs st d = Ok (st', d') ->
  d' = d /\
  (forall w, In w (fst st') <->
             In w (fst st) \/ (In w xs /\ supported d i j y w = false)) /\
  snd st' = snd st || negb (forallb (supported d i j y) xs).
Proof.
  induction xs as [|x_word rest IH]; intros st d st' d' H; simpl in H.
  - inv_step H. split; auto. split.
    + intros w. simpl. tauto.
    + simpl. now rewrite orb_false_r.
  - inv_step H.
    assert (S : supported d i j y x_word = find_match i j x_word a)
      by (unfold supported; now rewrite (dom_of_lookup _ _ _ H0)).
    destruct (find_match i j x_word a) eqn:F.
    + apply IH in H1. destruct H1 as (-> & Hin & Hfl). split; auto. split.
      * intros w. rewrite Hin. simpl. split.
        -- intros [?|[? ?]]; auto.
        -- intros [?|[[<-|?] ?]]; auto. congruence.
      * simpl. now rewrite S.
    + apply IH in H1. destruct H1 as (-> & Hin & Hfl). split; auto. split.
      * intros w. rewrite Hin. simpl. rewrite set_add_In. split.
        -- intros [[->|?]|[? ?]]; auto.
        -- intros [?|[[<-|?] ?]]; auto.
      * simpl in *. rewrite Hfl, S. simpl. now rewrite orb_true_r.
Qed.

Lemma revise_no_overlap x y d :
  overlaps cw x y = None -> revise cw x y d = Ok (false, d).
Proof. unfold revise. now intros ->. Qed.

(** [revise] keeps of the domain of [x] the supported words, in their order,
    and reports whether a word went away. *)
Lemma revise_Ok x y i j d b d' :
  overlaps cw x y = Some (i, j) ->
  revise cw x y d = Ok (b, d') ->
  exists xs, lookup x d = Some xs /\
             d' = update x (filter (supported d i j y) xs) d /\
             b = negb (forallb (supported d i j y) xs).
Proof.
  unfold revise, dom_subtract. intros -> H. inv_step H.
  apply revise_loop_Ok in H. destruct H as (-> & Hin & Hfl).
  rewrite H0 in H2. injection H2 as <-.
  exists a. split; auto. split; auto.
  f_equal. apply filter_ext_in. intros w Hw.
  destruct (word_in w (fst a0)) eqn:E; simpl.
  - apply word_in_In, Hin in E. simpl in E. destruct E as [[]|[_ E]]. now rewrite E.
  - apply word_in_not_In in E. rewrite Hin in E.
    destruct (supported d i j y w) eqn:F; auto. exfalso. apply E. auto.
Qed.

Lemma revise_loop_returns i j y xs : forall st d,
  revise_loop i j y xs st d <> OutOfFuel.
Proof.
  induction xs as [|x_word rest IH]; intros st d; simpl.
  - discriminate.
  - unfold bind, dom_get. destruct (lookup y d); [|discriminate].
    destruct (find_match i j x_word l); apply IH.
Qed.

Lemma revise_returns x y d : revise cw x y d <> OutOfFuel.
Proof.
  unfold revise. destruct (overlaps cw x y) as [[i j]|]; [|discriminate].
  unfold bind at 1, dom_get at 1. destruct (lookup x d) eqn:E; [|discriminate].
  unfold bind at 1.
  destruct (revise_loop i j y l ([], false) d) as [[st d1]| |] eqn:R;
    [|discriminate|now apply revise_loop_returns in R].
  unfold bind, dom_subtract, bind, dom_get, dom_set.
  destruct (lookup x d1); discriminate.
Qed.

Lemma size_update x xs xs' d :
  lookup x d = Some xs ->
  size (update x xs' d) + List.length xs = size d + List.length xs'.
Proof.
  unfold size. induction d as [|[k v] d IH]; simpl; [discriminate|].
  destruct (Var.eqb x k) eqn:E.
  - intros [= ->]. simpl. lia.
  - intros H. simpl. specialize (IH H). lia.
Qed.

Lemma filter_length_lt (A : Type) (f : A -> bool) l :
  forallb f l = false -> List.length (filter f l) < List.length l.
Proof.
  induction l as [|a l IH]; simpl; [discriminate|].
  destruct (f a) eqn:E; simpl.
  - intros H. apply IH in H. lia.
  - intros _. pose proof (filter_length_le f l). lia.
Qed.

Lemma filter_all (A : Type) (f : A -> bool) l :
  forallb f l = true -> filter f l = l.
Proof.
  induction l as [|a l IH]; simpl; auto.
  destruct (f a); simpl; [|discriminate]. intros H. now rewrite IH.
Qed.

(** A call that reports no change changes nothing. *)
Lemma revise_false x y d d' : revise cw x y d = Ok (false, d') -> d' = d.
Proof.
  intros H. destruct (overlaps cw x y) as [[i j]|] eqn:O.
  - destruct (revise_Ok _ _ _ _ _ _ _ O H) as (xs & L & -> & B).
    symmetry in B. apply negb_false_iff in B.
    rewrite filter_all by auto. now apply update_same.
  - rewrite revise_no_overlap in H by auto. now injection H.
Qed.

(** A call that reports a change strictly shrinks the domain of [x] and
    leaves the other domains alone. *)
Lemma revise_true x y d d' :
  revise cw x y d = Ok (true, d') ->
  exists xs xs', lookup x d = Some xs /\ lookup x d' = Some xs' /\
                 List.length xs' < List.length xs /\
                 (forall w, In w xs' -> In w xs) /\
                 (forall z, z <> x -> lookup z d' = lookup z d) /\
                 keys d' = keys d /\
                 size d' < size d.
Proof.
  intros H. destruct (overlaps cw x y) as [[i j]|] eqn:O.
  - destruct (revise_Ok _ _ _ _ _ _ _ O H) as (xs & L & -> & B).
    symmetry in B. apply negb_true_iff in B.
    exists xs, (filter (supported d i j y) xs).
    pose proof (filter_length_lt _ _ _ B) as Hlt.
    repeat split; auto.
    + apply lookup_update_eq.
    + intros w Hw. apply filter_In in Hw. tauto.
    + intros z N. apply lookup_update_neq. congruence.
    + apply keys_update_present. congruence.
    + pose proof (size_update _ _ (filter (supported d i j y) xs) _ L). lia.
  - rewrite revise_no_overlap in H by auto. discriminate.
Qed.
End Revise.

(** ** AC-3 *)

Section AC3.
Variable cw : Crossword.

Lemma set_remove_Some y s ns :
  set_remove y s = Some ns ->
  In y s /\ ns = filter (fun v => negb (Var.eqb v y)) s.
Proof.
  unfold set_remove. destruct (existsb (Var.eqb y) s) eqn:E; [|discriminate].
  intros [= <-]. split; auto.
  apply existsb_exists in E. destruct E as (v & I & E).
  apply VarFacts.eqb_eq in E. now subst.
Qed.

Lemma set_remove_In y s :
  In y s -> set_remove y s = Some (filter (fun v => negb (Var.eqb v y)) s).
Proof.
  intros I. unfold set_remove.
  replace (existsb (Var.eqb y) s) with true; auto.
  symmetry. apply existsb_exists. exists y. split; auto. apply VarFacts.eqb_refl.
Qed.

Lemma neighbors_In x z :
  In z (neighbors cw x) <->
  In z (variables cw) /\ z <> x /\ overlaps cw x z <> None.
Proof.
  unfold neighbors. rewrite filter_In, andb_true_iff, negb_true_iff, VarFacts.eqb_neq.
  destruct (overlaps cw x z); intuition congruence.
Qed.

Lemma initial_arcs_In x y :
  In (x, y) (initial_arcs cw) <-> In x (variables cw) /\ In y (neighbors cw x).
Proof.
  unfold initial_arcs. rewrite in_flat_map. split.
  - intros (v & Iv & I). apply in_map_iff in I.
    destruct I as (n & [= -> ->] & In'). auto.
  - intros [Ix Iy]. exists x. split; auto. apply in_map_iff. eauto.
Qed.

(** *** The loop and its iterations *)

Lemma ac3_loop_drained fuel d :
  ac3_loop cw (S fuel) [] d = Ok ((true, []), d).
Proof. reflexivity. Qed.

Lemma ac3_loop_fails fuel x y queue d d1 :
  revise cw x y d = Ok (true, d1) -> lookup x d1 = Some [] ->
  ac3_loop cw (S fuel) ((x, y) :: queue) d = Ok ((false, queue), d1).
Proof.
  intros R L. simpl. unfold bind at 1. rewrite R.
  unfold bind, dom_get. now rewrite L.
Qed.

Lemma ac3_loop_step fuel s1 s2 :
  ac3_step cw s1 s2 ->
  ac3_loop cw (S fuel) (fst s1) (snd s1) = ac3_loop cw fuel (fst s2) (snd s2).
Proof.
  intros St. destruct St as [x y queue d d1 R | x y queue d d1 w ws R L I]; simpl.
  - unfold bind at 1. now rewrite R.
  - unfold bind at 1. rewrite R. unfold bind, dom_get. rewrite L. simpl.
    now rewrite set_remove_In.
Qed.

(** Every returning run of the loop is a sequence of iterations that ends
    either with an empty worklist, or with a revision that emptied a
    domain; in the second case what is left of the worklist is the part
    behind the arc just popped. *)
Lemma ac3_loop_run fuel : forall q d r q' d',
  ac3_loop cw fuel q d = Ok ((r, q'), d') ->
  (r = true /\ q' = [] /\ ac3_steps cw (q, d) ([], d')) \/
  (r = false /\ exists x y d0,
      ac3_steps cw (q, d) ((x, y) :: q', d0) /\
      revise cw x y d0 = Ok (true, d') /\ lookup x d' = Some []).
Proof.
  induction fuel as [|fuel IH]; intros q d r q' d' H; simpl in H; [discriminate|].
  destruct q as [|[x y] queue].
  - injection H as <- <- <-. left. repeat split. constructor.
  - apply bind_Ok in H. destruct H as (revised & d1 & R & H).
    destruct revised.
    + apply bind_Ok in H. destruct H as (xs & d2 & G & H).
      apply dom_get_Ok in G. destruct G as [L ->].
      destruct xs as [|w ws]; simpl in H.
      * injection H as <- <- <-. right. split; auto.
        exists x, y, d. split; [constructor | auto].
      * destruct (set_remove y (neighbors cw x)) as [ns|] eqn:E; [|discriminate].
        apply set_remove_Some in E. destruct E as [I ->].
        apply IH in H.
        assert (St : ac3_step cw ((x, y) :: queue, d)
                  (queue ++ map (fun z => (z, x))
                     (filter (fun z => negb (Var.eqb z y)) (neighbors cw x)), d1))
          by (econstructor; eauto).
        destruct H as [(-> & -> & Hs) | (-> & x' & y' & d0 & Hs & Hr)].
        -- left. repeat split. econstructor; eauto.
        -- right. split; auto. exists x', y', d0. split; auto.
           econstructor; eauto.
    + apply IH in H.
      assert (St : ac3_step cw ((x, y) :: queue, d) (queue, d1))
        by (constructor; auto).
      destruct H as [(-> & -> & Hs) | (-> & x' & y' & d0 & Hs & Hr)].
      * left. repeat split. econstructor; eauto.
      * right. split; auto. exists x', y', d0. split; auto.
        econstructor; eauto.
Qed.

Lemma ac3_steps_invariant (P : list arc * Domains -> Prop) :
  (forall s1 s2, ac3_step cw s1 s2 -> P s1 -> P s2) ->
  forall s1 s2, ac3_steps cw s1 s2 -> P s1 -> P s2.
Proof. intros Hstep s1 s2 Hs. induction Hs; eauto. Qed.

(** *** Termination *)

Lemma ac3_loop_fuel fuel : forall q d,
  List.length q + size d * S (List.length (variables cw)) < fuel ->
  ac3_loop cw fuel q d <> OutOfFuel.
Proof.
  induction fuel as [|fuel IH]; intros q d Hf; [lia|].
  destruct q as [|[x y] queue]; simpl; [discriminate|].
  unfold bind at 1.
  destruct (revise cw x y d) as [[revised d1]|e|] eqn:R;
    [|discriminate|now apply revise_returns in R].
  destruct revised.
  - destruct (revise_true _ _ _ _ _ R) as (xs & xs' & L & L' & Hlt & _ & _ & _ & Hsz).
    unfold bind, dom_get. rewrite L'.
    destruct (List.length xs' =? 0); [discriminate|].
    destruct (set_remove y (neighbors cw x)) as [ns|] eqn:E; [|discriminate].
    apply set_remove_Some in E. destruct E as [_ ->].
    apply IH. rewrite length_app, length_map. simpl in Hf.
    pose proof (filter_length_le (fun v => negb (Var.eqb v y)) (neighbors cw x)) as H1.
    pose proof (filter_length_le
                  (fun v => negb (Var.eqb v x) &&
                     match overlaps cw x v with Some _ => true | None => false end)
                  (variables cw)) as H2.
    fold (neighbors cw x) in H2.
    nia.
  - apply revise_false in R. subst d1. apply IH. simpl in Hf. lia.
Qed.

(** C9 (AC-3 termination): a call of [revise] that reports a change leaves
    the domain of [x] with strictly fewer words, and for every crossword,
    worklist and domain store there is an amount of fuel from which on the
    worklist loop of [ac3] ends, by returning or by raising: it never runs
    out of fuel. *)
Theorem ac3_terminates :
  (forall x y d d',
      revise cw x y d = Ok (true, d') ->
      exists xs xs', lookup x d = Some xs /\ lookup x d' = Some xs' /\
                     List.length xs' < List.length xs) /\
  (forall arcs d, exists n, forall fuel,
      n <= fuel -> ac3 cw fuel arcs d <> OutOfFuel).
Proof.
  split.
  - intros x y d d' R.
    destruct (revise_true _ _ _ _ _ R) as (xs & xs' & L & L' & Hlt & _).
    exists xs, xs'. auto.
  - intros arcs d.
    set (q := match arcs with None => initial_arcs cw | Some q => q end).
    exists (S (List.length q + size d * S (List.length (variables cw)))).
    intros fuel Hf.
    replace (ac3 cw fuel arcs d) with (ac3_loop cw fuel q d)
      by (destruct arcs; reflexivity).
    apply ac3_loop_fuel. lia.
Qed.

(** *** Signalling *)

(** C6 (AC-3 failure and success signalling): a revision that leaves the
    domain of [x] empty makes the loop return [False] at once, the arcs
    behind the popped one staying unprocessed in the worklist; a revision
    that shrinks the domain of [x] to a non-empty one appends the arc
    [(z, x)] for every neighbor [z] of [x] other than [y] and goes on; an arc
    whose revision changes nothing is just dropped; an empty worklist makes
    the loop return [True]; and a returning run either went through its
    iterations down to the empty worklist and returned [True], or returned
    [False] right after a revision that emptied a domain. *)
Theorem ac3_signalling :
  (forall fuel x y queue d d1,
      revise cw x y d = Ok (true, d1) -> lookup x d1 = Some [] ->
      ac3_loop cw (S fuel) ((x, y) :: queue) d = Ok ((false, queue), d1)) /\
  (forall fuel x y queue d d1 w ws,
      revise cw x y d = Ok (true, d1) -> lookup x d1 = Some (w :: ws) ->
      In y (neighbors cw x) ->
      ac3_loop cw (S fuel) ((x, y) :: queue) d =
      ac3_loop cw fuel
        (queue ++ map (fun z => (z, x))
                      (filter (fun z => negb (Var.eqb z y)) (neighbors cw x)))
        d1) /\
  (forall x y z,
      In (z, x) (map (fun z => (z, x))
                     (filter (fun z => negb (Var.eqb z y)) (neighbors cw x))) <->
      In z (neighbors cw x) /\ z <> y) /\
  (forall fuel x y queue d d1,
      revise cw x y d = Ok (false, d1) ->
      ac3_loop cw (S fuel) ((x, y) :: queue) d = ac3_loop cw fuel queue d) /\
  (forall fuel d, ac3_loop cw (S fuel) [] d = Ok ((true, []), d)) /\
  (forall fuel arcs d r q' d',
      ac3 cw fuel arcs d = Ok ((r, q'), d') ->
      (r = true /\ q' = [] /\ ac3_steps cw (worklist cw arcs, d) ([], d')) \/
      (r = false /\ exists x y d0,
          ac3_steps cw (worklist cw arcs, d) ((x, y) :: q', d0) /\
          revise cw x y d0 = Ok (true, d') /\ lookup x d' = Some [])).
Proof.
  split; [|split; [|split; [|split; [|split]]]].
  - intros. now apply ac3_loop_fails.
  - intros fuel x y queue d d1 w ws R L I.
    apply (ac3_loop_step fuel ((x, y) :: queue, d)
             (queue ++ map (fun z => (z, x))
                (filter (fun z => negb (Var.eqb z y)) (neighbors cw x)), d1)).
    econstructor; eauto.
  - intros x y z. rewrite in_map_iff. split.
    + intros (z' & [= ->] & I). apply filter_In in I.
      rewrite negb_true_iff, VarFacts.eqb_neq in I. exact I.
    + intros [I N]. exists z. split; auto. apply filter_In.
      now rewrite negb_true_iff, VarFacts.eqb_neq.
  - intros fuel x y queue d d1 R.
    rewrite <- (revise_false _ _ _ _ _ R) at 2.
    apply (ac3_loop_step fuel ((x, y) :: queue, d) (queue, d1)).
    now constructor.
  - intros. apply ac3_loop_drained.
  - intros fuel arcs d r q' d' H. apply ac3_loop_run with (fuel := fuel).
    destruct arcs; exact H.
Qed.

(** C10, amended (the worklist is the caller's list): with an explicit
    [arcs] argument the loop works on the caller's list itself; each
    iteration that goes on pops the first arc and appends arcs [(z, x)] at
    the end; when [ac3] returns [True] the caller's list is empty, and when
    it returns [False] the caller's list holds what was behind the arc
    whose revision emptied a domain, which may be nothing. *)
Theorem ac3_explicit_arcs :
  (forall s1 s2, ac3_step cw s1 s2 ->
      exists x y rest zs,
        fst s1 = (x, y) :: rest /\ fst s2 = rest ++ map (fun z => (z, x)) zs) /\
  (forall fuel arcs d r q' d',
      ac3 cw fuel (Some arcs) d = Ok ((r, q'), d') ->
      (r = true /\ q' = [] /\ ac3_steps cw (arcs, d) ([], d')) \/
      (r = false /\ exists x y d0,
          ac3_steps cw (arcs, d) ((x, y) :: q', d0) /\
          revise cw x y d0 = Ok (true, d') /\ lookup x d' = Some [])).
Proof.
  split.
  - intros s1 s2 St. destruct St as [x y queue d d1 R | x y queue d d1 w ws R L I].
    + exists x, y, queue, []. simpl. now rewrite app_nil_r.
    + exists x, y, queue,
        (filter (fun z => negb (Var.eqb z y)) (neighbors cw x)). auto.
  - intros fuel arcs d r q' d' H. now apply ac3_loop_run with (fuel := fuel).
Qed.

(** *** Arc consistency *)

Lemma dom_of_In_lookup d y w :
  In w (dom_of d y) -> exists ys, lookup y d = Some ys /\ In w ys.
Proof.
  unfold dom_of. destruct (lookup y d) as [ys|]; [eauto | intros []].
Qed.

Lemma revise_true_overlap x y d d1 :
  revise cw x y d = Ok (true, d1) ->
  exists i j xs, overlaps cw x y = Some (i, j) /\ lookup x d = Some xs /\
                 d1 = update x (filter (supported d i j y) xs) d.
Proof.
  intros R. destruct (overlaps cw x y) as [[i j]|] eqn:O.
  - destruct (revise_Ok _ _ _ _ _ _ _ _ O R) as (xs & L & E & _).
    exists i, j, xs. auto.
  - rewrite revise_no_overlap in R by auto. discriminate.
Qed.

Lemma arc_step_consistent (Hsym : overlaps_symmetric cw) s1 s2 :
  ac3_step cw s1 s2 ->
  pending_or_consistent cw s1 -> pending_or_consistent cw s2.
Proof.
  intros St P.
  destruct St as [x y queue d d1 R | x y queue d d1 w0 ws0 R L1 I];
    intros x' y' i' j' Ix' Iy' N' O'; simpl;
    destruct (P x' y' i' j' Ix' Iy' N' O') as [Iq | C]; simpl in *.
  - (* no change: the popped arc is consistent *)
    pose proof (revise_false _ _ _ _ _ R) as ->.
    destruct Iq as [[= <- <-] | Iq]; [right | now left].
    destruct (revise_Ok _ _ _ _ _ _ _ _ O' R) as (xs & L & _ & B).
    symmetry in B. apply negb_false_iff in B.
    intros w Hw. rewrite (dom_of_lookup _ _ _ L) in Hw.
    apply supported_agree. rewrite forallb_forall in B. auto.
  - pose proof (revise_false _ _ _ _ _ R) as ->. now right.
  - (* the arc was in the worklist *)
    destruct (revise_true_overlap _ _ _ _ R) as (i & j & xs & O & L & ->).
    destruct Iq as [[= <- <-] | Iq]; [right | left; apply in_app_iff; now left].
    rewrite O in O'. injection O' as <- <-.
    intros w Hw. rewrite dom_of_update_eq in Hw. apply filter_In in Hw.
    destruct Hw as [_ Hw]. apply supported_agree in Hw.
    now rewrite dom_of_update_neq by auto.
  - (* the arc was consistent *)
    destruct (revise_true_overlap _ _ _ _ R) as (i & j & xs & O & L & ->).
    destruct (Var.eq_dec y' x) as [-> | Ny].
    + destruct (Var.eq_dec x' y) as [-> | Nx].
      * right. pose proof (Hsym _ _ _ _ O') as O2.
        rewrite O in O2. injection O2 as -> ->.
        intros w Hw. rewrite dom_of_update_neq in Hw by auto.
        destruct (C w Hw) as (wx & Hwx & G).
        exists wx. split; auto.
        rewrite dom_of_update_eq. apply filter_In.
        rewrite (dom_of_lookup _ _ _ L) in Hwx. split; auto.
        apply supported_agree. exists w. split; auto. now apply agree_sym.
      * left. apply in_app_iff. right. apply in_map_iff. exists x'. split; auto.
        apply filter_In. split.
        -- apply neighbors_In. repeat split; auto.
           rewrite (Hsym _ _ _ _ O'). discriminate.
        -- now rewrite negb_true_iff, VarFacts.eqb_neq.
    + right. intros w Hw.
      assert (Hw' : In w (dom_of d x')).
      { destruct (Var.eq_dec x x') as [<- | Nx].
        - rewrite dom_of_update_eq in Hw. apply filter_In in Hw.
          rewrite (dom_of_lookup _ _ _ L). tauto.
        - now rewrite dom_of_update_neq in Hw by auto. }
      destruct (C w Hw') as (wy & Hwy & G).
      exists wy. split; auto. rewrite dom_of_update_neq; auto.
Qed.

Lemma initial_pending d : pending_or_consistent cw (initial_arcs cw, d).
Proof.
  intros x y i j Ix Iy N O. left. simpl. apply initial_arcs_In. split; auto.
  apply neighbors_In. repeat split; auto. rewrite O. discriminate.
Qed.

(** C4 (arc-consistency soundness): on a crossword whose overlap relation is
    symmetric under index swap, whenever [ac3()] returns [True], every word
    that remains in the domain of a slot [x] has, for every neighbor [y] of
    [x] with registered overlap [(i, j)], a word in the domain of [y] whose
    [j]-th character is its [i]-th character. *)
Theorem ac3_sound fuel d q' d' :
  overlaps_symmetric cw ->
  ac3 cw fuel None d = Ok ((true, q'), d') ->
  forall x y i j,
    In x (variables cw) -> In y (neighbors cw x) ->
    overlaps cw x y = Some (i, j) ->
    forall xs wx, lookup x d' = Some xs -> In wx xs ->
      exists ys wy, lookup y d' = Some ys /\ In wy ys /\ agree i j wx wy.
Proof.
  intros Hsym H x y i j Ix Iy O xs wx L Hwx.
  apply ac3_loop_run in H.
  destruct H as [(_ & _ & Hs) | (E & _)]; [|discriminate].
  pose proof (ac3_steps_invariant (pending_or_consistent cw)
                (arc_step_consistent Hsym) _ _ Hs (initial_pending d)) as P.
  apply neighbors_In in Iy. destruct Iy as (Iy & N & _).
  destruct (P x y i j Ix Iy (not_eq_sym N) O) as [[] | C].
  simpl in C. destruct (C wx) as (wy & Hwy & G).
  { now rewrite (dom_of_lookup _ _ _ L). }
  apply dom_of_In_lookup in Hwy. destruct Hwy as (ys & Ly & Hwy).
  exists ys, wy. auto.
Qed.

(** *** No over-pruning *)

Lemma revise_keeps_solution sol x y b d d1 :
  valid_solution cw sol -> drawn_from d sol ->
  In y (variables cw) -> x <> y ->
  revise cw x y d = Ok (b, d1) -> drawn_from d1 sol.
Proof.
  intros V D Iy N R. destruct (overlaps cw x y) as [[i j]|] eqn:O.
  - destruct (revise_Ok _ _ _ _ _ _ _ _ O R) as (xs & L & -> & _).
    intros v w Lv. destruct (Var.eq_dec x v) as [<- | Nv].
    + rewrite dom_of_update_eq. apply filter_In. split.
      * rewrite <- (dom_of_lookup _ _ _ L). now apply D.
      * assert (Ix : In x (variables cw)).
        { apply (vs_slots V). apply lookup_In_keys. congruence. }
        destruct (vs_complete V y Iy) as (wy & Ly).
        apply supported_agree. exists wy. split; [now apply D|].
        exact (vs_overlap V Ix Iy N O Lv Ly).
    + rewrite dom_of_update_neq by auto. now apply D.
  - rewrite revise_no_overlap in R by auto. injection R as <- <-. exact D.
Qed.

Lemma solution_step sol s1 s2 :
  valid_solution cw sol ->
  ac3_step cw s1 s2 ->
  drawn_from (snd s1) sol /\ proper_arcs cw (fst s1) ->
  drawn_from (snd s2) sol /\ proper_arcs cw (fst s2).
Proof.
  intros V St [D Pq].
  destruct St as [x y queue d d1 R | x y queue d d1 w ws R L I]; simpl in *;
    destruct (Pq x y (or_introl eq_refl)) as (Ix & Iy & N).
  - split.
    + eapply revise_keeps_solution; eauto.
    + intros x' y' H. apply Pq. now right.
  - split.
    + eapply revise_keeps_solution; eauto.
    + intros x' y' H. apply in_app_iff in H. destruct H as [H | H].
      * apply Pq. now right.
      * apply in_map_iff in H. destruct H as (z & [= <- <-] & Hz).
        apply filter_In in Hz. destruct Hz as [Hz _].
        apply neighbors_In in Hz. tauto.
Qed.

Lemma initial_arcs_proper : proper_arcs cw (initial_arcs cw).
Proof.
  intros x y H. apply initial_arcs_In in H. destruct H as [Ix Iy].
  apply neighbors_In in Iy. destruct Iy as (Iy & N & _). auto.
Qed.

Lemma lookup_init_domains v :
  In v (variables cw) -> lookup v (init_domains cw) = Some (words cw).
Proof.
  unfold init_domains. induction (variables cw) as [|var rest IH]; simpl;
    [intros []|].
  intros [-> | I].
  - now rewrite VarFacts.eqb_refl.
  - destruct (Var.eqb v var); auto.
Qed.

(** After node consistency on the initial store, a valid filling with words
    of the wordlist is drawn from the domains. *)
Lemma node_consistent_drawn fresh sol d1 :
  iterates_set fresh ->
  valid_solution cw sol ->
  (forall v w, lookup v sol = Some w -> In w (words cw)) ->
  enforce_node_consistency fresh (init_domains cw) = Ok (tt, d1) ->
  drawn_from d1 sol.
Proof.
  intros F V Hw H v w L.
  destruct (node_loop_spec fresh F (keys (init_domains cw)) (init_domains cw))
    as (d' & Hrun & _ & Hdom).
  { intros v' Hv'. now apply lookup_In_keys. }
  unfold enforce_node_consistency in H. rewrite Hrun in H.
  injection H as <-.
  assert (Iv : In v (variables cw)).
  { apply (vs_slots V). apply lookup_In_keys. congruence. }
  pose proof (lookup_init_domains v Iv) as L0.
  destruct (Hdom v (words cw) L0) as (ws' & L' & Hin & _).
  rewrite (dom_of_lookup _ _ _ L').
  apply Hin.
  - apply lookup_In_keys. congruence.
  - split; [now apply (Hw v) | now apply (vs_length V)].
Qed.

Lemma ac3_keeps_drawn fuel d r q' d' sol :
  valid_solution cw sol -> drawn_from d sol ->
  ac3 cw fuel None d = Ok ((r, q'), d') ->
  drawn_from d' sol.
Proof.
  intros V D H.
  apply ac3_loop_run in H.
  pose proof (ac3_steps_invariant
                (fun s => drawn_from (snd s) sol /\ proper_arcs cw (fst s))
                (fun s1 s2 St => solution_step sol s1 s2 V St)) as Inv.
  destruct H as [(_ & _ & Hs) | (_ & x0 & y0 & d0 & Hs & R & _)].
  - now destruct (Inv _ _ Hs (conj D initial_arcs_proper)) as [D' _].
  - destruct (Inv _ _ Hs (conj D initial_arcs_proper)) as [D0 P0].
    simpl in D0, P0. destruct (P0 x0 y0 (or_introl eq_refl)) as (_ & Iy & N).
    eapply revise_keeps_solution; eauto.
Qed.

(** C5 (no over-pruning): a word [w] of the domain of a slot [x] that some
    complete valid solution, drawn from the domains as they are before AC-3
    runs, assigns to [x] is still in the domain of [x] when [ac3()]
    returns; in particular, when AC-3 runs on the store that node consistency
    made of the initial one, in whatever order the sets built there
    iterate, it keeps for every slot the word that any complete valid
    filling with words of the wordlist gives to it. *)
Theorem ac3_keeps_solutions :
  (forall fuel d r q' d' x w xs,
      lookup x d = Some xs -> In w xs ->
      (exists sol, valid_solution cw sol /\ drawn_from d sol /\
                   lookup x sol = Some w) ->
      ac3 cw fuel None d = Ok ((r, q'), d') ->
      exists xs', lookup x d' = Some xs' /\ In w xs') /\
  (forall fresh fuel d1 r q' d' sol x w,
      iterates_set fresh ->
      valid_solution cw sol ->
      (forall v w', lookup v sol = Some w' -> In w' (words cw)) ->
      enforce_node_consistency fresh (init_domains cw) = Ok (tt, d1) ->
      ac3 cw fuel None d1 = Ok ((r, q'), d') ->
      lookup x sol = Some w ->
      exists xs', lookup x d' = Some xs' /\ In w xs').
Proof.
  split.
  - intros fuel d r q' d' x w xs _ _ (sol & V & D & Lx) H.
    apply dom_of_In_lookup.
    now apply (ac3_keeps_drawn fuel d r q' d' sol V D H).
  - intros fresh fuel d1 r q' d' sol x w F V Hw Hn H Lx.
    apply dom_of_In_lookup.
    pose proof (node_consistent_drawn fresh sol d1 F V Hw Hn) as D.
    now apply (ac3_keeps_drawn fuel d1 r q' d' sol V D H).
Qed.

End AC3.

(** ** The search leaves the domain store alone *)

Section Frame.
Variable cw : Crossword.

Lemma count_eliminated_frame var a word ns : forall n d r d',
  count_eliminated cw var a word ns n d = Ok (r, d') -> d' = d.
Proof.
  induction ns as [|neighbor rest IH]; intros n d r d' H; simpl in H.
  - now inv_step H.
  - destruct (mem neighbor a); [now apply IH in H|].
    apply bind_Ok in H. destruct H as (nws & d1 & G & H).
    apply dom_get_Ok in G. destruct G as [_ ->].
    apply bind_Ok in H. destruct H as (n' & d2 & G & H).
    apply lift_Ok in G. destruct G as [_ ->].
    now apply IH in H.
Qed.

Lemma eliminations_loop_frame var a ns ws : forall acc d r d',
  eliminations_loop cw var a ns ws acc d = Ok (r, d') -> d' = d.
Proof.
  induction ws as [|word rest IH]; intros acc d r d' H; simpl in H.
  - now inv_step H.
  - apply bind_Ok in H. destruct H as (n & d1 & G & H).
    apply count_eliminated_frame in G. subst d1. now apply IH in H.
Qed.

Lemma order_domain_values_frame var a d vals d' :
  order_domain_values cw var a d = Ok (vals, d') -> d' = d.
Proof.
  unfold order_domain_values. intros H.
  apply bind_Ok in H. destruct H as (ws & d1 & G & H).
  apply dom_get_Ok in G. destruct G as [_ ->].
  apply bind_Ok in H. destruct H as (el & d2 & G & H).
  apply eliminations_loop_frame in G. subst d2.
  apply ret_Ok in H. tauto.
Qed.

Lemma select_loop_frame a vars : forall min min_var d r d',
  select_loop cw a vars min min_var d = Ok (r, d') -> d' = d.
Proof.
  induction vars as [|var rest IH]; intros min min_var d r d' H; simpl in H.
  - now inv_step H.
  - destruct (mem var a); [now apply IH in H|].
    apply bind_Ok in H. destruct H as (ws & d1 & G & H).
    apply dom_get_Ok in G. destruct G as [_ ->].
    destruct min as [m|]; [|now apply IH in H].
    destruct (List.length ws <? m); [now apply IH in H|].
    destruct (List.length ws =? m); [|now apply IH in H].
    destruct min_var as [mv|]; [|discriminate].
    destruct (List.length (neighbors cw mv) <? List.length (neighbors cw var));
      now apply IH in H.
Qed.

Lemma try_values_frame recurse var :
  (forall a d r d', recurse a d = Ok (r, d') -> d' = d) ->
  forall vals a d r d',
    try_values cw recurse var vals a d = Ok (r, d') -> d' = d.
Proof.
  intros Hrec. induction vals as [|value rest IH]; intros a d r d' H; simpl in H.
  - now inv_step H.
  - apply bind_Ok in H. destruct H as (ok & d1 & G & H).
    apply lift_Ok in G. destruct G as [_ ->].
    destruct ok; [|now apply IH in H].
    apply bind_Ok in H. destruct H as (r1 & d2 & G & H).
    apply Hrec in G. subst d2.
    destruct (fst r1); [|now apply IH in H].
    apply ret_Ok in H. tauto.
Qed.

Lemma backtrack_frame fuel : forall a d r d',
  backtrack cw fuel a d = Ok (r, d') -> d' = d.
Proof.
  induction fuel as [|fuel IH]; intros a d r d' H; simpl in H; [discriminate|].
  destruct (assignment_complete cw a).
  - apply ret_Ok in H. tauto.
  - apply bind_Ok in H. destruct H as (var & d1 & G & H).
    apply select_loop_frame in G. subst d1.
    destruct var as [var|]; [|discriminate].
    apply bind_Ok in H. destruct H as (vals & d2 & G & H).
    apply order_domain_values_frame in G. subst d2.
    eapply try_values_frame; eauto.
Qed.

(** C8 (the search leaves the domain store alone): when [backtrack] returns,
    with an assignment or with [None], the domain store is the one it was
    called with, so every slot has the candidate set, and the number of
    candidates, that preprocessing left it; [order_domain_values], whose
    pass over the domains of the neighbors only counts conflicts, returns
    with the store unchanged as well; and the store that [solve] ends with is
    the one its call of [ac3] produced, in whatever order the sets built by
    node consistency iterate. *)
Theorem search_keeps_domains :
  (forall fuel a d r a' d',
      backtrack cw fuel a d = Ok ((r, a'), d') ->
      d' = d /\
      forall s, lookup s d' = lookup s d /\
                List.length (dom_of d' s) = List.length (dom_of d s)) /\
  (forall var a d vals d',
      order_domain_values cw var a d = Ok (vals, d') -> d' = d) /\
  (forall fresh fuel d r d',
      solve cw fresh fuel d = Ok (r, d') ->
      exists d1 b q, enforce_node_consistency fresh d = Ok (tt, d1) /\
                     ac3 cw fuel None d1 = Ok ((b, q), d')).
Proof.
  split; [|split].
  - intros fuel a d r a' d' H. apply backtrack_frame in H. subst d'. auto.
  - apply order_domain_values_frame.
  - unfold solve. intros fresh fuel d r d' H.
    apply bind_Ok in H. destruct H as ([] & d1 & Hn & H).
    apply bind_Ok in H. destruct H as ([b q] & d2 & Ha & H).
    apply bind_Ok in H. destruct H as (res & d3 & Hb & H).
    apply ret_Ok in H. destruct H as [_ ->].
    apply backtrack_frame in Hb. subst d3.
    exists d1, b, q. auto.
Qed.

End Frame.

(** ** Backtracking search: soundness *)

Section Soundness.
Variable cw : Crossword.

Lemma keys_update_In (V : Type) k (x : V) d v :
  In v (keys (update k x d)) <-> v = k \/ In v (keys d).
Proof.
  destruct (lookup k d) as [y|] eqn:E.
  - rewrite keys_update_present by congruence. split; auto.
    intros [->|H]; auto. apply lookup_In_keys. congruence.
  - rewrite keys_update_absent by auto. rewrite in_app_iff. simpl.
    split; [intros [H|[H|[]]] | intros [H|H]]; auto.
Qed.

Lemma keys_update_NoDup (V : Type) k (x : V) d :
  NoDup (keys d) -> NoDup (keys (update k x d)).
Proof.
  intros ND. destruct (lookup k d) as [y|] eqn:E.
  - now rewrite keys_update_present by congruence.
  - rewrite keys_update_absent by auto.
    apply NoDup_app; auto.
    + repeat constructor. simpl. tauto.
    + intros v Hv [<-|[]]. apply lookup_In_keys in Hv. congruence.
Qed.

Lemma keys_pop_In (V : Type) k (d : dict V) v :
  In v (keys (pop k d)) -> In v (keys d).
Proof.
  induction d as [|[k' x] d IH]; simpl; auto.
  destruct (Var.eqb k k'); simpl; tauto.
Qed.

Lemma keys_pop_NoDup (V : Type) k (d : dict V) :
  NoDup (keys d) -> NoDup (keys (pop k d)).
Proof.
  induction d as [|[k' x] d IH]; simpl; auto.
  intros ND. inversion ND as [|? ? Hn ND']; subst.
  destruct (Var.eqb k k'); simpl; auto.
  constructor; auto. intros H. apply Hn. eapply keys_pop_In; eauto.
Qed.

Lemma update_assigned_once var value a :
  In var (variables cw) ->
  slots_assigned_once cw a -> slots_assigned_once cw (update var value a).
Proof.
  intros Iv [ND Sub]. split.
  - now apply keys_update_NoDup.
  - intros v Hv. apply keys_update_In in Hv. destruct Hv as [->|Hv]; auto.
Qed.

Lemma pop_assigned_once var a :
  slots_assigned_once cw a -> slots_assigned_once cw (pop var a).
Proof.
  intros [ND Sub]. split.
  - now apply keys_pop_NoDup.
  - intros v Hv. apply Sub. eapply keys_pop_In; eauto.
Qed.

(** *** What [consistent] checks *)

Lemma word_set_In l w : In w (word_set l) <-> In w l.
Proof.
  induction l as [|x l IH]; simpl; [tauto|].
  rewrite set_add_In, IH. intuition congruence.
Qed.

Lemma set_add_length w ws :
  List.length (set_add w ws) =
  if word_in w ws then List.length ws else S (List.length ws).
Proof.
  unfold set_add. destruct (word_in w ws); auto.
  rewrite length_app. simpl. lia.
Qed.

Lemma word_set_length_le l : List.length (word_set l) <= List.length l.
Proof.
  induction l as [|x l IH]; simpl; auto.
  rewrite set_add_length. destruct (word_in x (word_set l)); lia.
Qed.

Lemma word_set_length_NoDup l :
  List.length (word_set l) = List.length l -> NoDup l.
Proof.
  induction l as [|x l IH]; simpl; [constructor|].
  rewrite set_add_length. pose proof (word_set_length_le l) as Hle.
  destruct (word_in x (word_set l)) eqn:E; [lia|].
  intros H. constructor.
  - apply word_in_not_In in E. now rewrite word_set_In in E.
  - apply IH. lia.
Qed.

Lemma neighbors_agree_true a var word ns :
  neighbors_agree cw a var word ns = Ok true ->
  forall n i j wn,
    In n ns -> overlaps cw var n = Some (i, j) -> lookup n a = Some wn ->
    agree i j word wn.
Proof.
  induction ns as [|neighbor rest IH]; simpl; intros H n i j wn I O L;
    [contradiction|].
  destruct (overlaps cw var neighbor) as [[i' j']|] eqn:O'; [|discriminate].
  destruct I as [<- | I].
  - rewrite O in O'. injection O' as <- <-. rewrite L in H.
    destruct (String.get i word) as [c|] eqn:G1; [|discriminate].
    destruct (String.get j wn) as [c'|] eqn:G2; [|discriminate].
    destruct (Ascii.eqb c c') eqn:E; [|discriminate].
    apply Ascii.eqb_eq in E. subst c'. exists c. auto.
  - apply (fun G => IH G n i j wn); auto.
    destruct (lookup neighbor a) as [wn'|]; auto.
    destruct (String.get i' word) as [c|]; [|discriminate].
    destruct (String.get j' wn') as [c'|]; [|discriminate].
    destruct (Ascii.eqb c c'); [auto | discriminate].
Qed.

Lemma consistent_loop_true a vars :
  consistent_loop cw a vars = Ok true ->
  forall var, In var vars ->
    exists word, lookup var a = Some word /\
                 String.length word = Var.length var /\
                 neighbors_agree cw a var word (neighbors cw var) = Ok true.
Proof.
  induction vars as [|v rest IH]; simpl; intros H var I; [contradiction|].
  destruct (lookup v a) as [word|] eqn:L; [|discriminate].
  destruct (Nat.eqb_spec (String.length word) (Var.length v)) as [E|E];
    simpl in H; [|discriminate].
  destruct (neighbors_agree cw a v word (neighbors cw v)) as [[|]| |] eqn:G;
    try discriminate.
  destruct I as [<- | I]; [|now apply IH].
  exists word. auto.
Qed.

Lemma consistent_true a :
  consistent cw a = Ok true ->
  NoDup (values a) /\
  (forall v w, lookup v a = Some w -> String.length w = Var.length v) /\
  (forall x y i j wx wy,
      In y (variables cw) -> x <> y -> overlaps cw x y = Some (i, j) ->
      lookup x a = Some wx -> lookup y a = Some wy -> agree i j wx wy).
Proof.
  unfold consistent. intros H.
  destruct (Nat.eqb_spec (List.length a) (List.length (word_set (values a))))
    as [E|E]; simpl in H; [|discriminate].
  pose proof (consistent_loop_true _ _ H) as Hk.
  split; [|split].
  - apply word_set_length_NoDup. unfold values in *. rewrite length_map. auto.
  - intros v w L. destruct (Hk v) as (word & L' & Hlen & _).
    { apply lookup_In_keys. congruence. }
    congruence.
  - intros x y i j wx wy Iy N O Lx Ly.
    destruct (Hk x) as (word & L' & _ & G).
    { apply lookup_In_keys. congruence. }
    rewrite Lx in L'. injection L' as <-.
    apply (neighbors_agree_true _ _ _ _ G y); auto.
    apply neighbors_In. repeat split; auto. rewrite O. discriminate.
Qed.

Lemma complete_loop_true a vars :
  complete_loop vars a = true ->
  forall v, In v vars -> exists w, lookup v a = Some w.
Proof.
  induction vars as [|var rest IH]; simpl; intros H v I; [contradiction|].
  destruct (lookup var a) as [w|] eqn:L; [|discriminate].
  destruct (is_empty_word w); [discriminate|].
  destruct I as [<- | I]; eauto.
Qed.

Lemma consistent_complete_valid a :
  slots_assigned_once cw a ->
  assignment_complete cw a = true ->
  consistent cw a = Ok true ->
  valid_solution cw a.
Proof.
  intros [ND Sub] Hc H. apply consistent_true in H.
  destruct H as (Hd & Hl & Ho).
  constructor; auto.
  - now apply complete_loop_true.
  - intros x y i j wx wy _ Iy N O Lx Ly. eapply Ho; eauto.
Qed.

(** *** The search *)

Lemma select_loop_In a vars : forall min min_var d v d',
  select_loop cw a vars min min_var d = Ok (Some v, d') ->
  min_var = Some v \/ In v vars.
Proof.
  induction vars as [|var rest IH]; intros min min_var d v d' H; simpl in H.
  - apply ret_Ok in H. destruct H as [-> _]. now left.
  - assert (Hgo : forall m mv d0,
               select_loop cw a rest m mv d0 = Ok (Some v, d') ->
               mv = min_var \/ mv = Some var ->
               min_var = Some v \/ In v (var :: rest)).
    { intros m mv d0 G [-> | ->]; apply IH in G; simpl.
      - tauto.
      - destruct G as [[= ->] | G]; auto. }
    destruct (mem var a); [eapply Hgo; eauto|].
    apply bind_Ok in H. destruct H as (ws & d1 & G & H).
    destruct min as [m|]; [|eapply Hgo; eauto].
    destruct (List.length ws <? m); [eapply Hgo; eauto|].
    destruct (List.length ws =? m); [|eapply Hgo; eauto].
    destruct min_var as [mv|]; [|discriminate].
    destruct (List.length (neighbors cw mv) <? List.length (neighbors cw var));
      eapply Hgo; eauto.
Qed.

Lemma try_values_sound recurse var :
  returns_valid cw recurse -> In var (variables cw) ->
  forall vals a d r a' d',
    slots_assigned_once cw a ->
    try_values cw recurse var vals a d = Ok ((r, a'), d') ->
    slots_assigned_once cw a' /\
    forall result, r = Some result ->
      result = a' /\ assignment_complete cw result = true /\
      consistent cw result = Ok true.
Proof.
  intros Hrec Iv. induction vals as [|value rest IH];
    intros a d r a' d' W H; simpl in H.
  - apply ret_Ok in H. destruct H as [[= -> ->] _]. split; auto. discriminate.
  - apply bind_Ok in H. destruct H as (ok & d1 & G & H).
    apply lift_Ok in G. destruct G as [C ->].
    pose proof (update_assigned_once var value a Iv W) as W1.
    destruct ok; [|now apply IH in H].
    apply bind_Ok in H. destruct H as ([r1 a1] & d2 & G & H).
    destruct (Hrec _ _ _ _ _ W1 C G) as [W2 Hres]. simpl in H.
    destruct r1 as [result|].
    + apply ret_Ok in H. destruct H as [[= -> ->] _]. split; [exact W2|].
      intros res [= <-]. now apply Hres.
    + apply IH in H; auto. now apply pop_assigned_once.
Qed.

Lemma backtrack_sound fuel : returns_valid cw (backtrack cw fuel).
Proof.
  induction fuel as [|fuel IH]; intros a d r a' d' W C H; simpl in H;
    [discriminate|].
  destruct (assignment_complete cw a) eqn:Hc.
  - apply ret_Ok in H. destruct H as [[= -> ->] _]. split; [exact W|].
    intros result [= <-]. auto.
  - apply bind_Ok in H. destruct H as (var & d1 & G & H).
    destruct var as [var|]; [|discriminate].
    apply select_loop_In in G. destruct G as [G | G]; [discriminate|].
    apply bind_Ok in H. destruct H as (vals & d2 & _ & H).
    eapply try_values_sound; eauto.
Qed.

Lemma consistent_empty : consistent cw [] = Ok true.
Proof. reflexivity. Qed.

(** C1 (search soundness): whenever [solve] returns an assignment, that
    assignment gives every slot of the crossword exactly one word, its words
    are pairwise distinct, each has the length of its slot, and for every
    two slots with registered overlap [(i, j)] the [i]-th character of the
    first word is the [j]-th character of the second; this holds for every
    store [solve] starts from and every iteration order of the sets. *)
Theorem solve_sound fresh fuel d a d' :
  solve cw fresh fuel d = Ok (Some a, d') -> valid_solution cw a.
Proof.
  unfold solve. intros H.
  apply bind_Ok in H. destruct H as (u & d1 & _ & H).
  apply bind_Ok in H. destruct H as (b & d2 & _ & H).
  apply bind_Ok in H. destruct H as ([r a'] & d3 & G & H).
  apply ret_Ok in H. destruct H as [E _]. simpl in E. subst r.
  assert (W0 : slots_assigned_once cw []).
  { split; [constructor | intros v []]. }
  destruct (backtrack_sound fuel _ _ _ _ _ W0 consistent_empty G) as [W Hres].
  destruct (Hres a eq_refl) as (-> & Hc & C).
  now apply consistent_complete_valid.
Qed.

End Soundness.

(** ** The search on concrete crosswords *)

Section Examples.
Import Example.

Lemma example_symmetric : overlaps_symmetric cw.
Proof.
  intros x y i j. simpl. unfold ov.
  destruct (Var.eq_dec x A) as [-> | NA]; destruct (Var.eq_dec y B) as [-> | NB].
  - intros [= <- <-]. reflexivity.
  - rewrite VarFacts.eqb_refl. simpl.
    apply VarFacts.eqb_neq in NB. rewrite NB. simpl. discriminate.
  - apply VarFacts.eqb_neq in NA. rewrite NA. simpl.
    destruct (Var.eq_dec x B) as [-> | NB']; [|apply VarFacts.eqb_neq in NB'; rewrite NB'; discriminate].
    simpl. discriminate.
  - apply VarFacts.eqb_neq in NA. rewrite NA. simpl.
    destruct (Var.eq_dec x B) as [-> | NB'];
      [|apply VarFacts.eqb_neq in NB'; rewrite NB'; discriminate].
    rewrite VarFacts.eqb_refl. simpl.
    destruct (Var.eq_dec y A) as [-> | NA'];
      [|apply VarFacts.eqb_neq in NA'; rewrite NA'; discriminate].
    intros [= <- <-]. reflexivity.
Qed.

Lemma example_lookup (V : Type) (v : Var.t) (a b w : V) :
  lookup v [(A, a); (B, b)] = Some w ->
  (v = A /\ w = a) \/ (v = B /\ w = b).
Proof.
  simpl. destruct (Var.eq_dec v A) as [-> | NA].
  - rewrite VarFacts.eqb_refl. intros [= <-]. auto.
  - apply VarFacts.eqb_neq in NA. rewrite NA.
    destruct (Var.eq_dec v B) as [-> | NB].
    + rewrite VarFacts.eqb_refl. intros [= <-]. auto.
    + apply VarFacts.eqb_neq in NB. rewrite NB. discriminate.
Qed.

Lemma example_solution_valid : valid_solution cw solution.
Proof.
  constructor.
  - repeat constructor; simpl; intuition discriminate.
  - simpl. tauto.
  - intros v [<- | [<- | []]]; eexists; reflexivity.
  - repeat constructor; simpl; intuition discriminate.
  - intros v w L. apply example_lookup in L.
    destruct L as [[-> ->] | [-> ->]]; reflexivity.
  - intros x y i j wx wy Ix Iy N O Lx Ly.
    apply example_lookup in Lx. apply example_lookup in Ly.
    destruct Lx as [[-> ->] | [-> ->]]; destruct Ly as [[-> ->] | [-> ->]];
      try congruence; injection O as <- <-.
    + exists "B"%char. split; reflexivity.
    + exists "B"%char. split; reflexivity.
Qed.

Lemma example_solution_drawn : drawn_from pruned solution.
Proof.
  intros v w L. apply example_lookup in L.
  destruct L as [[-> ->] | [-> ->]]; simpl; auto.
Qed.

(** C2 (undo of failed branches), failing inputs.  On the crossword [twin],
    whose two isolated slots have the one word CAT to share, [backtrack]
    called with the empty assignment returns [None] and leaves an entry in
    the dictionary: the entry of the second slot, which failed the
    distinctness check, was never popped.  On the crossword [cw], after node
    consistency and AC-3, it returns [None] and leaves two entries: the
    entry of [B] that failed the check under [A = AA], and the entry
    [A = BC] that then failed the check against it. *)
Theorem backtrack_leaves_entries :
  solve twin insertion_order 5 (init_domains twin) =
    Ok (None, init_domains twin) /\
  backtrack twin 5 [] (init_domains twin) =
    Ok ((None, [(T2, "CAT"%string)]), init_domains twin) /\
  backtrack cw 5 [] pruned = Ok ((None, leftover), pruned).
Proof. repeat split; vm_compute; reflexivity. Qed.

(** C3 (search completeness), failing input: on the crossword [cw], with
    the sets of node consistency iterating in the order of [filtered], node
    consistency and AC-3 succeed, the filling [solution] is complete, valid
    and drawn from the domains that remain, and [solve] returns [None]. *)
Theorem solve_misses_solution :
  enforce_node_consistency insertion_order (init_domains cw) =
    Ok (tt, filtered) /\
  ac3 cw 5 None filtered = Ok ((true, []), pruned) /\
  valid_solution cw solution /\
  drawn_from pruned solution /\
  solve cw insertion_order 5 (init_domains cw) = Ok (None, pruned).
Proof.
  split; [vm_compute; reflexivity|].
  split; [vm_compute; reflexivity|].
  split; [exact example_solution_valid|].
  split; [exact example_solution_drawn|].
  vm_compute; reflexivity.
Qed.

(** C10, as stated, fails: [ac3] called with the one-arc list [[(A, B)]] on
    a store where the word of [A] has no partner returns [False], and the
    caller's list is empty: no pending arc remains in it. *)
Lemma ac3_failure_drains_list :
  ac3 cw 1 (Some [(A, B)]) doomed =
  Ok ((false, []), [(A, []); (B, ["AA"%string])]).
Proof. vm_compute; reflexivity. Qed.

(** *** The theorems at work *)

(** On the two crossing slots of [cw2] the search returns D over B C: two
    distinct words of length 2 that share the letter B on the common cell. *)
Lemma solve_sound_witness :
  valid_solution cw2 [(B, "DB"%string); (A, "BC"%string)].
Proof.
  apply (solve_sound cw2 insertion_order 5 (init_domains cw2)
           [(B, "DB"%string); (A, "BC"%string)]
           [(A, ["AA"; "BC"]%string); (B, ["AA"; "DB"]%string)]).
  vm_compute. reflexivity.
Defined.

(** In the arc-consistent store the word BC of [A] has a partner in [B]. *)
Lemma ac3_sound_witness :
  exists ys wy, lookup B pruned = Some ys /\ In wy ys /\
                agree 0 1 "BC"%string wy.
Proof.
  apply (ac3_sound cw 5 filtered [] pruned example_symmetric)
    with (x := A) (xs := ["AA"; "BC"]%string).
  - vm_compute. reflexivity.
  - simpl. auto.
  - vm_compute. auto.
  - reflexivity.
  - reflexivity.
  - simpl. auto.
Defined.

(** AC-3 keeps the word BC that the filling gives to [A]. *)
Lemma ac3_keeps_solutions_witness :
  exists xs', lookup A pruned = Some xs' /\ In "BC"%string xs'.
Proof.
  apply (proj2 (ac3_keeps_solutions cw) insertion_order 5 filtered true []
           pruned solution A "BC"%string).
  - exact insertion_order_ok.
  - exact example_solution_valid.
  - intros v w L. apply example_lookup in L.
    destruct L as [[-> ->] | [-> ->]]; simpl; auto.
  - vm_compute. reflexivity.
  - vm_compute. reflexivity.
  - reflexivity.
Defined.

(** The failing revision of [(A, B)] leaves the arc [(B, A)] unprocessed. *)
Lemma ac3_signalling_witness :
  ac3_loop cw 1 [(A, B); (B, A)] doomed =
  Ok ((false, [(B, A)]), [(A, []); (B, ["AA"%string])]).
Proof.
  apply (proj1 (ac3_signalling cw)).
  - vm_compute. reflexivity.
  - reflexivity.
Defined.

(** Node consistency on [mixed], with sets that iterate in the reverse of
    the order of the additions: the slot of length 4 keeps GAME and WORD,
    the slot of length 3 keeps WIG and CAT. *)
Lemma enforce_node_consistency_exact_witness :
  exists d',
    enforce_node_consistency reverse_order (init_domains mixed) = Ok (tt, d') /\
    keys d' = keys (init_domains mixed) /\
    forall s ws, lookup s (init_domains mixed) = Some ws ->
      exists ws', lookup s d' = Some ws' /\
        NoDup ws' /\
        forall w, In w ws' <-> In w ws /\ String.length w = Var.length s.
Proof.
  exact (enforce_node_consistency_exact reverse_order reverse_order_ok
           (init_domains mixed)).
Defined.

(** The failed search of [cw] returns the store it was given. *)
Lemma search_keeps_domains_witness :
  match backtrack cw 5 [] pruned with
  | Ok (_, d') => d' = pruned
  | _ => False
  end.
Proof.
  destruct (backtrack cw 5 [] pruned) as [[[r a'] d']| e |] eqn:E.
  - exact (proj1 (proj1 (search_keeps_domains cw) 5 [] pruned r a' d' E)).
  - vm_compute in E. discriminate.
  - vm_compute in E. discriminate.
Defined.

(** The revision of [(A, B)] in the node-consistent store of [cw] drops DB. *)
Lemma ac3_terminates_witness :
  exists xs xs', lookup A filtered = Some xs /\
                 lookup A [(A, ["AA"; "BC"]%string);
                           (B, ["DB"; "AA"; "BC"]%string)] = Some xs' /\
                 List.length xs' < List.length xs.
Proof.
  apply (proj1 (ac3_terminates cw) A B).
  vm_compute. reflexivity.
Defined.

(** A successful run on the caller's list [[(A, B)]] leaves it empty. *)
Lemma ac3_explicit_arcs_witness :
  (true = true /\ @nil arc = [] /\
   ac3_steps cw ([(A, B)], pruned) ([], pruned)) \/
  (true = false /\ exists x y d0,
      ac3_steps cw ([(A, B)], pruned) ((x, y) :: [], d0) /\
      revise cw x y d0 = Ok (true, pruned) /\
      lookup x pruned = Some []).
Proof.
  apply (proj2 (ac3_explicit_arcs cw) 2).
  vm_compute. reflexivity.
Defined.

End Examples.


(** * Further properties of the code *)

(** ** revise and ac3 *)

Section ReviseMore.
Variable cw : Crossword.

Lemma revise_loop_total i j y ys xs : forall st d,
  lookup y d = Some ys ->
  exists st', revise_loop i j y xs st d = Ok (st', d).
Proof.
  induction xs as [|x_word rest IH]; intros st d L; simpl.
  - eexists; reflexivity.
  - unfold bind, dom_get. rewrite L.
    destruct (find_match i j x_word ys); apply IH; auto.
Qed.

Lemma revise_total x y i j d xs :
  overlaps cw x y = Some (i, j) -> lookup x d = Some xs ->
  (xs = [] \/ lookup y d <> None) ->
  revise cw x y d =
  Ok (negb (forallb (supported d i j y) xs),
      update x (filter (supported d i j y) xs) d).
Proof.
  intros O L H.
  assert (E : exists b d', revise cw x y d = Ok (b, d')).
  { unfold revise. rewrite O. unfold bind at 1, dom_get at 1. rewrite L.
    assert (exists st', revise_loop i j y xs ([], false) d = Ok (st', d))
      as [st' R].
    { destruct H as [-> | H].
      - simpl. eexists; reflexivity.
      - destruct (lookup y d) eqn:Ly; [|congruence].
        eapply revise_loop_total; eauto. }
    unfold bind at 1. rewrite R.
    unfold dom_subtract, bind, dom_get, dom_set. rewrite L.
    eexists; eexists; reflexivity. }
  destruct E as (b & d' & R).
  destruct (revise_Ok cw _ _ _ _ _ _ _ O R) as (xs' & L' & -> & ->).
  rewrite L in L'. injection L' as <-. exact R.
Qed.

Lemma forallb_false_exists (A : Type) (f : A -> bool) l :
  forallb f l = false <-> exists x, In x l /\ f x = false.
Proof.
  induction l as [|a l IH]; simpl.
  - split; [discriminate | intros (x & [] & _)].
  - rewrite andb_false_iff, IH. split.
    + intros [H | (x & I & H)]; [exists a | exists x]; auto.
    + intros (x & [<- | I] & H); [now left | right; eauto].
Qed.

(** X1 ([revise], what it computes): for two slots with an overlap whose
    domains are in the store, [revise] returns, touches no domain but that
    of [x], keeps in it exactly the words that have, in the domain of [y], a
    word with the same character at the overlap, and returns [True] iff it
    dropped a word. *)
Theorem revise_exact x y i j d xs ys :
  overlaps cw x y = Some (i, j) ->
  lookup x d = Some xs -> lookup y d = Some ys ->
  exists b xs',
    revise cw x y d = Ok (b, update x xs' d) /\
    (forall w, In w xs' <->
               In w xs /\ exists wy, In wy ys /\ agree i j w wy) /\
    (b = true <->
     exists w, In w xs /\ ~ exists wy, In wy ys /\ agree i j w wy).
Proof.
  intros O Lx Ly.
  exists (negb (forallb (fun w => find_match i j w ys) xs)),
         (filter (fun w => find_match i j w ys) xs).
  split; [|split].
  - rewrite (revise_total x y i j d xs O Lx) by (right; congruence).
    unfold supported. now rewrite (dom_of_lookup _ _ _ Ly).
  - intros w. rewrite filter_In, find_match_agree. tauto.
  - rewrite negb_true_iff, forallb_false_exists. split.
    + intros (w & I & F). exists w. split; [exact I|].
      intros P. apply find_match_agree in P. congruence.
    + intros (w & I & N). exists w. split; [exact I|].
      destruct (find_match i j w ys) eqn:F; [|reflexivity].
      exfalso. apply N. now apply find_match_agree.
Qed.

(** X2 ([revise], edge and error behaviour): without an overlap the call
    returns [False] and reads no domain; with an overlap, a slot [x] that is
    no key of the store raises KeyError, an empty domain of [x] gives [False]
    without the domain of [y] being looked up, and a non-empty domain of [x]
    with [y] no key of the store raises KeyError. *)
Theorem revise_edges x y d :
  (overlaps cw x y = None -> revise cw x y d = Ok (false, d)) /\
  (overlaps cw x y <> None -> lookup x d = None ->
   revise cw x y d = Raise KeyError) /\
  (overlaps cw x y <> None -> lookup x d = Some [] ->
   revise cw x y d = Ok (false, d)) /\
  (forall w ws, overlaps cw x y <> None -> lookup x d = Some (w :: ws) ->
   lookup y d = None -> revise cw x y d = Raise KeyError).
Proof.
  split; [|split; [|split]].
  - apply revise_no_overlap.
  - intros O L. unfold revise. destruct (overlaps cw x y) as [[i j]|]; [|congruence].
    unfold bind, dom_get. now rewrite L.
  - intros O L. destruct (overlaps cw x y) as [[i j]|] eqn:E; [|congruence].
    rewrite (revise_total x y i j d [] E L) by auto. simpl.
    now rewrite (update_same _ _ _ _ L).
  - intros w ws O L Ly. unfold revise.
    destruct (overlaps cw x y) as [[i j]|]; [|congruence].
    unfold bind at 1, dom_get at 1. rewrite L. simpl.
    unfold bind, dom_get. now rewrite Ly.
Qed.

Lemma revise_frame x y d b d' :
  revise cw x y d = Ok (b, d') ->
  keys d' = keys d /\
  (forall z, z <> x -> lookup z d' = lookup z d) /\
  (forall z w, In w (dom_of d' z) -> In w (dom_of d z)).
Proof.
  intros R. destruct b.
  - destruct (revise_true cw _ _ _ _ R)
      as (xs & xs' & L & L' & _ & Hsub & Hoth & Hk & _).
    repeat split; auto.
    intros z w. destruct (Var.eq_dec z x) as [-> | N].
    + rewrite (dom_of_lookup _ _ _ L), (dom_of_lookup _ _ _ L'). apply Hsub.
    + unfold dom_of. now rewrite (Hoth z N).
  - apply revise_false in R. subst d'. auto.
Qed.

Lemma ac3_frame fuel arcs d r q' d' :
  ac3 cw fuel arcs d = Ok ((r, q'), d') ->
  keys d' = keys d /\
  forall z w, In w (dom_of d' z) -> In w (dom_of d z).
Proof.
  intros H.
  assert (H' : ac3_loop cw fuel (worklist cw arcs) d = Ok ((r, q'), d'))
    by (destruct arcs; exact H).
  apply ac3_loop_run in H'.
  pose (P := fun s : list arc * Domains =>
               keys (snd s) = keys d /\
               forall z w, In w (dom_of (snd s) z) -> In w (dom_of d z)).
  assert (Hstep : forall s1 s2, ac3_step cw s1 s2 -> P s1 -> P s2).
  { unfold P. intros s1 s2 St [Hk Hs].
    destruct St as [x y queue d0 d1 R | x y queue d0 d1 w ws R L I];
      simpl in *;
      destruct (revise_frame _ _ _ _ _ R) as (Hk1 & _ & Hs1);
      (split; [congruence | auto]). }
  assert (P0 : P (worklist cw arcs, d)) by (unfold P; simpl; auto).
  destruct H' as [(_ & _ & Hs) | (_ & x & y & d0 & Hs & R & _)].
  - exact (ac3_steps_invariant cw P Hstep _ _ Hs P0).
  - destruct (ac3_steps_invariant cw P Hstep _ _ Hs P0) as [Hk Hsub].
    simpl in Hk, Hsub.
    destruct (revise_frame _ _ _ _ _ R) as (Hk1 & _ & Hs1).
    split; [congruence | auto].
Qed.

(** X3 ([ac3] never adds anything): whenever [ac3] returns, with [True] or
    with [False], the store has the slots it had, in their order, and the
    domain of every slot holds only words it held before the call. *)
Theorem ac3_only_shrinks fuel arcs d r q' d' :
  ac3 cw fuel arcs d = Ok ((r, q'), d') ->
  keys d' = keys d /\
  forall z ws', lookup z d' = Some ws' ->
    exists ws, lookup z d = Some ws /\ forall w, In w ws' -> In w ws.
Proof.
  intros H. destruct (ac3_frame _ _ _ _ _ _ H) as [Hk Hsub].
  split; auto. intros z ws' L'.
  destruct (lookup z d) as [ws|] eqn:L.
  - exists ws. split; auto. intros w Hw.
    specialize (Hsub z w). rewrite (dom_of_lookup _ _ _ L') in Hsub.
    rewrite (dom_of_lookup _ _ _ L) in Hsub. auto.
  - exfalso. assert (I : In z (keys d')) by (apply lookup_In_keys; congruence).
    rewrite Hk in I. apply lookup_In_keys in I. congruence.
Qed.

(** With every slot in the store and arcs between distinct slots, the loop
    returns once the fuel exceeds its measure: no subscript fails and
    [remove] finds its element. *)
Lemma ac3_loop_total fuel : forall q d,
  proper_arcs cw q ->
  (forall v, In v (variables cw) -> lookup v d <> None) ->
  List.length q + size d * S (List.length (variables cw)) < fuel ->
  exists r q' d', ac3_loop cw fuel q d = Ok ((r, q'), d').
Proof.
  induction fuel as [|fuel IH]; intros q d Pq Hk Hf; [lia|].
  destruct q as [|[x y] queue]; simpl; [repeat eexists; reflexivity|].
  destruct (Pq x y (or_introl eq_refl)) as (Ix & Iy & N).
  assert (Pq' : proper_arcs cw queue) by (intros a b H; apply Pq; now right).
  destruct (lookup x d) as [xs|] eqn:Lx; [|now apply Hk in Ix].
  unfold bind at 1.
  destruct (overlaps cw x y) as [[i j]|] eqn:O.
  - rewrite (revise_total x y i j d xs O Lx) by (right; now apply Hk).
    destruct (forallb (supported d i j y) xs) eqn:B; simpl.
    + rewrite filter_all by auto. rewrite (update_same _ _ _ _ Lx).
      apply IH; auto. simpl in Hf. lia.
    + unfold bind, dom_get. rewrite lookup_update_eq.
      destruct (List.length (filter (supported d i j y) xs) =? 0);
        [repeat eexists; reflexivity|].
      rewrite set_remove_In
        by (apply neighbors_In; repeat split; auto; rewrite O; discriminate).
      apply IH.
      * intros a b H. apply in_app_iff in H. destruct H as [H | H]; [now apply Pq'|].
        apply in_map_iff in H. destruct H as (z & [= <- <-] & Hz).
        apply filter_In in Hz. destruct Hz as [Hz _].
        apply neighbors_In in Hz. tauto.
      * intros v Iv. destruct (Var.eq_dec x v) as [<- | Nv].
        -- rewrite lookup_update_eq. discriminate.
        -- rewrite lookup_update_neq by auto. now apply Hk.
      * rewrite length_app, length_map. simpl in Hf.
        pose proof (filter_length_le (fun v => negb (Var.eqb v y))
                      (neighbors cw x)) as H1.
        pose proof (filter_length_le
                      (fun v => negb (Var.eqb v x) &&
                         match overlaps cw x v with
                         | Some _ => true | None => false end)
                      (variables cw)) as H2.
        fold (neighbors cw x) in H2.
        pose proof (filter_length_lt _ _ _ B) as H3.
        pose proof (size_update x xs (filter (supported d i j y) xs) d Lx) as H4.
        nia.
  - rewrite revise_no_overlap by auto. apply IH; auto. simpl in Hf. lia.
Qed.

(** X4 ([ac3()] never raises): on a store that has a domain for every slot
    of the crossword, [ac3] called without arcs returns [True] or [False]
    from some amount of fuel on: every subscript of [self.domains] finds its
    key, and [x_neighbors.remove(y)] always finds [y]. *)
Theorem ac3_returns d :
  (forall v, In v (variables cw) -> lookup v d <> None) ->
  exists n, forall fuel, n <= fuel ->
    exists r q' d', ac3 cw fuel None d = Ok ((r, q'), d').
Proof.
  intros Hk.
  exists (S (List.length (initial_arcs cw) +
             size d * S (List.length (variables cw)))).
  intros fuel Hf. apply ac3_loop_total.
  - apply initial_arcs_proper.
  - exact Hk.
  - lia.
Qed.

Lemma ac3_loop_consistent fuel : forall q d,
  (forall v, In v (variables cw) -> lookup v d <> None) ->
  (forall x y, In (x, y) q ->
     In x (variables cw) /\ In y (variables cw) /\
     forall i j, overlaps cw x y = Some (i, j) -> arc_consistent d x y i j) ->
  List.length q < fuel ->
  ac3_loop cw fuel q d = Ok ((true, []), d).
Proof.
  induction fuel as [|fuel IH]; intros q d Hk Hq Hf; [lia|].
  destruct q as [|[x y] queue]; simpl; [reflexivity|].
  destruct (Hq x y (or_introl eq_refl)) as (Ix & Iy & C).
  destruct (lookup x d) as [xs|] eqn:Lx; [|now apply Hk in Ix].
  assert (R : revise cw x y d = Ok (false, d)).
  { destruct (overlaps cw x y) as [[i j]|] eqn:O.
    - rewrite (revise_total x y i j d xs O Lx) by (right; now apply Hk).
      assert (B : forallb (supported d i j y) xs = true).
      { apply forallb_forall. intros w Hw. apply supported_agree.
        apply (C i j eq_refl). now rewrite (dom_of_lookup _ _ _ Lx). }
      rewrite B, filter_all by auto. simpl.
      now rewrite (update_same _ _ _ _ Lx).
    - now apply revise_no_overlap. }
  unfold bind at 1. rewrite R. apply IH; auto.
  - intros a b H. apply Hq. now right.
  - simpl in Hf. lia.
Qed.

(** X5 ([ac3()] twice): on a crossword with a symmetric overlap relation and
    a store that has a domain for every slot, once [ac3()] has returned
    [True], a second call returns [True] as well and leaves the store as the
    first call left it. *)
Theorem ac3_idempotent fuel d q' d' :
  overlaps_symmetric cw ->
  (forall v, In v (variables cw) -> lookup v d <> None) ->
  ac3 cw fuel None d = Ok ((true, q'), d') ->
  forall fuel', List.length (initial_arcs cw) < fuel' ->
    ac3 cw fuel' None d' = Ok ((true, []), d').
Proof.
  intros Hsym Hk H fuel' Hf.
  destruct (ac3_frame _ _ _ _ _ _ H) as [Hkeys _].
  simpl in H. apply ac3_loop_run in H.
  destruct H as [(_ & _ & Hs) | (E & _)]; [|discriminate].
  pose proof (ac3_steps_invariant cw (pending_or_consistent cw)
                (arc_step_consistent cw Hsym) _ _ Hs (initial_pending cw d)) as P.
  simpl. apply ac3_loop_consistent; auto.
  - intros v Iv. apply lookup_In_keys. rewrite Hkeys.
    apply lookup_In_keys. now apply Hk.
  - intros x y Hxy. apply initial_arcs_In in Hxy. destruct Hxy as [Ix Iy].
    apply neighbors_In in Iy. destruct Iy as (Iy & N & _).
    repeat split; auto. intros i j O.
    destruct (P x y i j Ix Iy (not_eq_sym N) O) as [[] | C]. exact C.
Qed.

End ReviseMore.

(** ** Node consistency, completeness and consistency checks *)

Section ChecksMore.
Variable cw : Crossword.

(** X6 (node consistency twice): in whatever order the sets that it builds
    iterate, [enforce_node_consistency] returns, and a second call on the
    store it leaves returns as well, with the same slots and, for every
    slot, the same words, each once: the second call removes nothing, and
    can at most change the order in which a domain iterates. *)
Theorem enforce_node_consistency_idempotent (fresh : set_order) (d : Domains) :
  iterates_set fresh ->
  exists d1 d2,
    enforce_node_consistency fresh d = Ok (tt, d1) /\
    enforce_node_consistency fresh d1 = Ok (tt, d2) /\
    keys d2 = keys d1 /\
    forall s ws, lookup s d1 = Some ws ->
      exists ws', lookup s d2 = Some ws' /\ Permutation ws ws'.
Proof.
  intros F.
  destruct (node_loop_spec fresh F (keys d) d) as (d1 & Hrun1 & Hk1 & Hdom1).
  { intros v Hv. now apply lookup_In_keys. }
  destruct (node_loop_spec fresh F (keys d1) d1) as (d2 & Hrun2 & Hk2 & Hdom2).
  { intros v Hv. now apply lookup_In_keys. }
  exists d1, d2. split; [exact Hrun1|]. split; [exact Hrun2|].
  split; [exact Hk2|].
  intros s ws L.
  assert (I1 : In s (keys d1)) by (apply lookup_In_keys; congruence).
  assert (I0 : In s (keys d)) by (now rewrite <- Hk1).
  destruct (lookup s d) as [ws0|] eqn:L0;
    [|apply lookup_In_keys in I0; congruence].
  destruct (Hdom1 s ws0 L0) as (ws1 & L1 & Hin1 & _).
  rewrite L in L1. injection L1 as <-.
  destruct (Hin1 I0) as [ND1 M1].
  destruct (Hdom2 s ws L) as (ws' & L2 & Hin2 & _).
  destruct (Hin2 I1) as [ND2 M2].
  exists ws'. split; [exact L2|].
  apply NoDup_Permutation; auto.
  intros w. rewrite M2. split; [|tauto].
  intros Hw. split; [exact Hw|]. now apply M1.
Qed.

Lemma is_empty_word_false w : is_empty_word w = false <-> w <> EmptyString.
Proof. destruct w; simpl; split; congruence. Qed.

Lemma complete_loop_iff a vars :
  complete_loop vars a = true <->
  forall v, In v vars -> exists w, lookup v a = Some w /\ w <> EmptyString.
Proof.
  induction vars as [|var rest IH]; simpl.
  - split; [intros _ v [] | auto].
  - split.
    + intros H v I. destruct (lookup var a) as [w|] eqn:L; [|discriminate].
      destruct (is_empty_word w) eqn:E; [discriminate|].
      destruct I as [<- | I].
      * exists w. split; auto. now apply is_empty_word_false.
      * now apply IH.
    + intros H. destruct (H var (or_introl eq_refl)) as (w & L & N).
      rewrite L. apply is_empty_word_false in N. rewrite N.
      apply IH. intros v I. apply H. now right.
Qed.

(** X7 ([assignment_complete]): the check succeeds exactly when every slot of
    the crossword is a key of the assignment with a non-empty word; a slot
    that is assigned the empty string counts as unassigned. *)
Theorem assignment_complete_iff (a : Assignment) :
  assignment_complete cw a = true <->
  forall v, In v (variables cw) ->
    exists w, lookup v a = Some w /\ w <> EmptyString.
Proof. apply complete_loop_iff. Qed.

Lemma word_set_NoDup_length l :
  NoDup l -> List.length (word_set l) = List.length l.
Proof.
  induction 1 as [|x l Hn ND IH]; simpl; auto.
  rewrite set_add_length.
  assert (E : word_in x (word_set l) = false).
  { apply word_in_not_In. now rewrite word_set_In. }
  rewrite E. lia.
Qed.

Lemma neighbors_agree_holds a var word ns :
  (forall n, In n ns -> overlaps cw var n <> None) ->
  (forall n i j wn,
      In n ns -> overlaps cw var n = Some (i, j) -> lookup n a = Some wn ->
      agree i j word wn) ->
  neighbors_agree cw a var word ns = Ok true.
Proof.
  induction ns as [|neighbor rest IH]; intros Ho Ha; simpl; auto.
  destruct (overlaps cw var neighbor) as [[i j]|] eqn:O;
    [|exfalso; apply (Ho neighbor); simpl; auto].
  assert (R : neighbors_agree cw a var word rest = Ok true).
  { apply IH.
    - intros n I. apply Ho. now right.
    - intros n i' j' wn I. apply Ha. now right. }
  destruct (lookup neighbor a) as [wn|] eqn:L; auto.
  destruct (Ha neighbor i j wn (or_introl eq_refl) O L) as (c & G1 & G2).
  rewrite G1, G2, Ascii.eqb_refl. exact R.
Qed.

Lemma consistent_loop_holds a vars :
  (forall v, In v vars -> exists w, lookup v a = Some w) ->
  (forall v w, lookup v a = Some w -> String.length w = Var.length v) ->
  (forall x y i j wx wy,
      In y (variables cw) -> x <> y -> overlaps cw x y = Some (i, j) ->
      lookup x a = Some wx -> lookup y a = Some wy -> agree i j wx wy) ->
  consistent_loop cw a vars = Ok true.
Proof.
  intros Hk Hl Ho. induction vars as [|var rest IH]; simpl; auto.
  destruct (Hk var (or_introl eq_refl)) as (word & L). rewrite L.
  rewrite (Hl var word L), Nat.eqb_refl. simpl.
  rewrite neighbors_agree_holds.
  - apply IH. intros v I. apply Hk. now right.
  - intros n I. apply neighbors_In in I. tauto.
  - intros n i j wn I O Ln. apply neighbors_In in I.
    destruct I as (I & N & _). eapply Ho; eauto.
Qed.

(** X8 ([consistent], what it decides): the check returns [True] exactly when
    the words of the assignment are pairwise distinct, every assigned word
    has the length of its slot, and any two assigned slots with a registered
    overlap [(i, j)] carry words whose [i]-th and [j]-th characters exist and
    are equal; and an assignment that uses a word twice gets [False] without
    any length or character being looked at, so without an exception. *)
Theorem consistent_iff (a : Assignment) :
  (consistent cw a = Ok true <->
   NoDup (values a) /\
   (forall v w, lookup v a = Some w -> String.length w = Var.length v) /\
   (forall x y i j wx wy,
       In y (variables cw) -> x <> y -> overlaps cw x y = Some (i, j) ->
       lookup x a = Some wx -> lookup y a = Some wy -> agree i j wx wy)) /\
  (~ NoDup (values a) -> consistent cw a = Ok false).
Proof.
  split; [split|].
  - apply consistent_true.
  - intros (Hd & Hl & Ho). unfold consistent.
    replace (List.length (word_set (values a))) with (List.length a)
      by (rewrite word_set_NoDup_length by auto; unfold values;
          now rewrite length_map).
    rewrite Nat.eqb_refl. simpl.
    apply consistent_loop_holds; auto.
    intros v I. apply lookup_In_keys in I.
    destruct (lookup v a) as [w|]; [eauto | congruence].
  - intros Hd. unfold consistent.
    destruct (Nat.eqb_spec (List.length a) (List.length (word_set (values a))))
      as [E|E]; simpl; auto.
    exfalso. apply Hd. apply word_set_length_NoDup.
    unfold values in *. rewrite length_map. auto.
Qed.

End ChecksMore.

(** ** The heuristics of the search *)

Section Heuristics.
Variable cw : Crossword.

Lemma best_choice_some d a (seen : Var.t -> Prop) mv :
  seen mv -> mem mv a = false ->
  (forall u, seen u -> mem u a = false ->
     List.length (dom_of d mv) <= List.length (dom_of d u) /\
     (List.length (dom_of d u) = List.length (dom_of d mv) ->
      List.length (neighbors cw u) <= List.length (neighbors cw mv))) ->
  best_choice cw d a seen (Some (List.length (dom_of d mv))) (Some mv).
Proof. intros S M H. simpl. auto. Qed.

Lemma best_choice_ext d a (seen seen' : Var.t -> Prop) m r :
  (forall u, seen u <-> seen' u) ->
  best_choice cw d a seen m r -> best_choice cw d a seen' m r.
Proof.
  intros E B. destruct r as [mv|]; simpl in *.
  - destruct B as (Em & S & M & H).
    split; [exact Em|]. split; [now apply E|]. split; [exact M|].
    intros u Su Mu. apply H; auto. now apply E.
  - destruct B as (Em & H). split; [exact Em|].
    intros u Su. apply H. now apply E.
Qed.

(** A slot that is a key of the assignment changes nothing. *)
Lemma best_choice_skip d a (seen : Var.t -> Prop) m r var :
  mem var a = true ->
  best_choice cw d a seen m r ->
  best_choice cw d a (fun u => seen u \/ u = var) m r.
Proof.
  intros Mv B. destruct r as [mv|]; simpl in *.
  - destruct B as (Em & S & M & H).
    split; [exact Em|]. split; [now left|]. split; [exact M|].
    intros u [Su | ->] Mu; [now apply H | congruence].
  - destruct B as (Em & H). split; [exact Em|].
    intros u [Su | ->]; auto.
Qed.

(** The slot [var] takes the place of [mv]: it has fewer candidates, or as
    many and more neighbors. *)
Lemma best_choice_take d a (seen : Var.t -> Prop) mv var :
  best_choice cw d a seen (Some (List.length (dom_of d mv))) (Some mv) ->
  mem var a = false ->
  List.length (dom_of d var) < List.length (dom_of d mv) \/
  (List.length (dom_of d var) = List.length (dom_of d mv) /\
   List.length (neighbors cw mv) < List.length (neighbors cw var)) ->
  best_choice cw d a (fun u => seen u \/ u = var)
              (Some (List.length (dom_of d var))) (Some var).
Proof.
  intros (_ & S & M & H) Mv Hc. apply best_choice_some; auto.
  intros u [Su | ->] Mu; [|lia].
  destruct (H u Su Mu) as [H1 H2]. lia.
Qed.

(** The slot [mv] stays: [var] has more candidates, or as many and no more
    neighbors. *)
Lemma best_choice_keep d a (seen : Var.t -> Prop) mv var :
  best_choice cw d a seen (Some (List.length (dom_of d mv))) (Some mv) ->
  List.length (dom_of d mv) < List.length (dom_of d var) \/
  (List.length (dom_of d var) = List.length (dom_of d mv) /\
   List.length (neighbors cw var) <= List.length (neighbors cw mv)) ->
  best_choice cw d a (fun u => seen u \/ u = var)
              (Some (List.length (dom_of d mv))) (Some mv).
Proof.
  intros (_ & S & M & H) Hc. apply best_choice_some; auto.
  intros u [Su | ->] Mu; [now apply H | lia].
Qed.

Lemma select_loop_best a d vars : forall (seen : Var.t -> Prop) min min_var,
  best_choice cw d a seen min min_var ->
  (forall v, In v vars -> mem v a = false -> lookup v d <> None) ->
  exists r m, select_loop cw a vars min min_var d = Ok (r, d) /\
              best_choice cw d a (fun u => seen u \/ In u vars) m r.
Proof.
  induction vars as [|var rest IH]; intros seen min min_var B Hk; simpl.
  - exists min_var, min. split; [reflexivity|].
    apply (best_choice_ext d a seen); auto. intros u. tauto.
  - assert (Hk' : forall v, In v rest -> mem v a = false -> lookup v d <> None)
      by (intros v I; apply Hk; now right).
    assert (Hnext : forall m' r',
              best_choice cw d a (fun u => seen u \/ u = var) m' r' ->
              exists r m, select_loop cw a rest m' r' d = Ok (r, d) /\
                best_choice cw d a (fun u => seen u \/ var = u \/ In u rest) m r).
    { intros m' r' B'. destruct (IH _ _ _ B' Hk') as (r & m & R & Br).
      exists r, m. split; auto.
      apply (best_choice_ext d a (fun u => (seen u \/ u = var) \/ In u rest));
        auto.
      intros u. intuition congruence. }
    destruct (mem var a) eqn:Mv.
    + apply Hnext. now apply best_choice_skip.
    + destruct (lookup var d) as [ws|] eqn:L;
        [|exfalso; apply (Hk var); simpl; auto].
      unfold bind, dom_get. rewrite L.
      assert (Dv : List.length ws = List.length (dom_of d var))
        by now rewrite (dom_of_lookup _ _ _ L).
      destruct min_var as [mv|].
      * assert (Em : min = Some (List.length (dom_of d mv))) by apply B.
        subst min. rewrite Dv.
        destruct (Nat.ltb_spec (List.length (dom_of d var))
                    (List.length (dom_of d mv))) as [Hlt | Hge].
        { apply Hnext. apply (best_choice_take d a seen mv var); auto. }
        destruct (Nat.eqb_spec (List.length (dom_of d var))
                    (List.length (dom_of d mv))) as [Heq | Hne].
        -- destruct (Nat.ltb_spec (List.length (neighbors cw mv))
                       (List.length (neighbors cw var))) as [Hd | Hd].
           ++ apply Hnext. rewrite <- Heq.
              apply (best_choice_take d a seen mv var); auto.
           ++ apply Hnext. apply (best_choice_keep d a seen mv var); auto.
        -- apply Hnext. apply (best_choice_keep d a seen mv var); auto.
           left. lia.
      * destruct B as (-> & H). rewrite Dv.
        apply Hnext. apply best_choice_some; auto.
        intros u [Su | ->] Mu; [|lia].
        rewrite (H u Su) in Mu. discriminate.
Qed.

(** X9 ([select_unassigned_variable], the choice it makes): when every slot
    outside the assignment has a domain in the store, the call returns with
    the store untouched; it returns [None] only if every slot of the
    crossword is a key of the assignment, and otherwise a slot of the
    crossword that is no key of the assignment, has the fewest candidates
    among such slots and, among those with as few, the most neighbors. *)
Theorem select_unassigned_variable_best (a : Assignment) (d : Domains) :
  (forall v, In v (variables cw) -> mem v a = false -> lookup v d <> None) ->
  exists r, select_unassigned_variable cw a d = Ok (r, d) /\
    match r with
    | None => forall u, In u (variables cw) -> mem u a = true
    | Some v =>
        In v (variables cw) /\ mem v a = false /\
        forall u, In u (variables cw) -> mem u a = false ->
          List.length (dom_of d v) <= List.length (dom_of d u) /\
          (List.length (dom_of d u) = List.length (dom_of d v) ->
           List.length (neighbors cw u) <= List.length (neighbors cw v))
    end.
Proof.
  intros Hk.
  destruct (select_loop_best a d (variables cw) (fun _ => False) None None)
    as (r & m & R & B).
  { simpl. split; [reflexivity | intros u []]. }
  { exact Hk. }
  exists r. split; [exact R|].
  destruct r as [v|]; simpl in B.
  - destruct B as (_ & S & M & H).
    split; [destruct S as [[] | S]; exact S|]. split; [exact M|].
    intros u I Mu. apply H; auto.
  - destruct B as (_ & H). intros u I. apply H. auto.
Qed.

Lemma count_conflicts_Ok var n word nws : forall e r,
  count_conflicts cw var n word nws e = Ok r ->
  r = e + List.length (filter (differs cw var n word) nws).
Proof.
  induction nws as [|nw rest IH]; intros e r H; simpl in H.
  - injection H as <-. simpl. lia.
  - simpl. unfold differs at 1.
    destruct (overlaps cw var n) as [[i j]|]; [|discriminate].
    destruct (String.get i word) as [c|]; [|discriminate].
    destruct (String.get j nw) as [c'|]; [|discriminate].
    apply IH in H. destruct (Ascii.eqb c c'); simpl; lia.
Qed.

Lemma count_eliminated_Ok var a word d ns : forall e r d',
  count_eliminated cw var a word ns e d = Ok (r, d') ->
  r = e + list_sum (map (ruled_out cw d a var word) ns).
Proof.
  induction ns as [|n rest IH]; intros e r d' H; simpl in H.
  - apply ret_Ok in H. destruct H as [-> _]. simpl. lia.
  - simpl. unfold ruled_out at 1. destruct (mem n a).
    + apply IH in H. lia.
    + apply bind_Ok in H. destruct H as (nws & d1 & G & H).
      apply dom_get_Ok in G. destruct G as [L ->].
      apply bind_Ok in H. destruct H as (e' & d2 & G & H).
      apply lift_Ok in G. destruct G as [G ->].
      apply count_conflicts_Ok in G. apply IH in H.
      rewrite (dom_of_lookup _ _ _ L). lia.
Qed.

Lemma eliminations_loop_Ok var a d ws : forall acc r d',
  eliminations_loop cw var a (neighbors cw var) ws acc d = Ok (r, d') ->
  r = acc ++ map (fun w => (w, eliminated cw d a var w)) ws.
Proof.
  induction ws as [|word rest IH]; intros acc r d' H; simpl in H.
  - apply ret_Ok in H. destruct H as [-> _]. simpl. now rewrite app_nil_r.
  - apply bind_Ok in H. destruct H as (e & d1 & G & H).
    pose proof (count_eliminated_frame _ _ _ _ _ _ _ _ _ G) as ->.
    apply count_eliminated_Ok in G. apply IH in H. subst r.
    rewrite <- app_assoc. simpl. subst e. reflexivity.
Qed.

Lemma insert_by_count_perm e l : Permutation (e :: l) (insert_by_count e l).
Proof.
  induction l as [|e' rest IH]; simpl; auto.
  destruct (snd e <=? snd e'); auto.
  rewrite perm_swap. now constructor.
Qed.

Lemma sort_by_count_perm l : Permutation l (sort_by_count l).
Proof.
  induction l as [|e rest IH]; simpl; auto.
  rewrite <- insert_by_count_perm. now constructor.
Qed.

Lemma insert_by_count_HdRel e0 e l :
  snd e0 <= snd e ->
  HdRel (fun p q : string * nat => snd p <= snd q) e0 l ->
  HdRel (fun p q : string * nat => snd p <= snd q) e0 (insert_by_count e l).
Proof.
  intros He Hl. destruct l as [|e' rest]; simpl.
  - now constructor.
  - destruct (snd e <=? snd e'); constructor; auto.
    now inversion Hl.
Qed.

Lemma insert_by_count_sorted e l :
  Sorted (fun p q : string * nat => snd p <= snd q) l ->
  Sorted (fun p q : string * nat => snd p <= snd q) (insert_by_count e l).
Proof.
  induction 1 as [|e' rest Hs IH Hh]; simpl.
  - repeat constructor.
  - destruct (Nat.leb_spec (snd e) (snd e')) as [Hle | Hgt].
    + constructor; [now constructor | now constructor].
    + constructor; auto. apply insert_by_count_HdRel; auto. lia.
Qed.

Lemma sort_by_count_sorted l :
  Sorted (fun p q : string * nat => snd p <= snd q) (sort_by_count l).
Proof.
  induction l as [|e rest IH]; simpl; [constructor|].
  now apply insert_by_count_sorted.
Qed.

Lemma sorted_by_count_values (f : string -> nat) l :
  Forall (fun p => snd p = f (fst p)) l ->
  Sorted (fun p q : string * nat => snd p <= snd q) l ->
  Sorted (fun w1 w2 => f w1 <= f w2) (map fst l).
Proof.
  intros Hf Hs. induction Hs as [|p rest Hs IH Hh]; simpl; [constructor|].
  inversion Hf as [|? ? Hp Hrest]; subst.
  constructor; auto.
  destruct Hh as [|q rest' Hpq]; simpl; constructor.
  inversion Hrest as [|? ? Hq _]; subst. rewrite <- Hp, <- Hq. exact Hpq.
Qed.

(** X10 ([order_domain_values], least-constraining value first): when the
    call returns, the store is untouched and the list it returns holds
    exactly the words of the domain of [var], each as often as the domain
    does, in ascending order of the number of candidates that the word rules
    out of the domains of the neighbors of [var] outside the assignment. *)
Theorem order_domain_values_sorted var (a : Assignment) (d : Domains) vals d' :
  order_domain_values cw var a d = Ok (vals, d') ->
  d' = d /\
  exists ws, lookup var d = Some ws /\
             Permutation ws vals /\
             Sorted (fun w1 w2 => eliminated cw d a var w1 <=
                                  eliminated cw d a var w2) vals.
Proof.
  unfold order_domain_values. intros H.
  apply bind_Ok in H. destruct H as (ws & d1 & G & H).
  apply dom_get_Ok in G. destruct G as [L ->].
  apply bind_Ok in H. destruct H as (el & d2 & G & H).
  pose proof (eliminations_loop_frame _ _ _ _ _ _ _ _ _ G) as ->.
  apply eliminations_loop_Ok in G. simpl in G. subst el.
  apply ret_Ok in H. destruct H as [-> ->].
  split; auto. exists ws. split; auto. split.
  - rewrite <- sort_by_count_perm. rewrite map_map. simpl.
    now rewrite map_id.
  - apply sorted_by_count_values; [|apply sort_by_count_sorted].
    eapply Permutation_Forall; [apply sort_by_count_perm|].
    apply Forall_forall. intros p Hp. apply in_map_iff in Hp.
    destruct Hp as (w & <- & _). reflexivity.
Qed.

End Heuristics.

(** ** The search and the dictionary it works on *)

Section SearchMore.
Variable cw : Crossword.

Lemma lookup_pop_neq (V : Type) k k' (d : dict V) :
  k <> k' -> lookup k' (pop k d) = lookup k' d.
Proof.
  intros N. induction d as [|[k0 v0] d IH]; simpl; auto.
  destruct (Var.eqb k k0) eqn:E; simpl.
  - apply VarFacts.eqb_eq in E. subst k0.
    destruct (Var.eqb k' k) eqn:E'; auto.
    apply VarFacts.eqb_eq in E'. congruence.
  - now rewrite IH.
Qed.

Lemma mem_lookup (V : Type) k (d : dict V) :
  mem k d = true <-> exists v, lookup k d = Some v.
Proof.
  unfold mem. destruct (lookup k d); split; eauto; try discriminate.
  intros (v & H). discriminate.
Qed.

Lemma select_loop_unassigned a vars : forall min min_var d v d',
  select_loop cw a vars min min_var d = Ok (Some v, d') ->
  min_var = Some v \/ (In v vars /\ mem v a = false).
Proof.
  induction vars as [|var rest IH]; intros min min_var d v d' H; simpl in H.
  - apply ret_Ok in H. destruct H as [-> _]. now left.
  - destruct (mem var a) eqn:Mv.
    + apply IH in H. simpl. tauto.
    + assert (Hgo : forall m mv d0,
                 select_loop cw a rest m mv d0 = Ok (Some v, d') ->
                 mv = min_var \/ mv = Some var ->
                 min_var = Some v \/ (In v (var :: rest) /\ mem v a = false)).
      { intros m mv d0 G [-> | ->]; apply IH in G; simpl.
        - tauto.
        - destruct G as [[= ->] | G]; [auto | tauto]. }
      apply bind_Ok in H. destruct H as (ws & d1 & G & H).
      destruct min as [m|]; [|eapply Hgo; eauto].
      destruct (List.length ws <? m); [eapply Hgo; eauto|].
      destruct (List.length ws =? m); [|eapply Hgo; eauto].
      destruct min_var as [mv|]; [|discriminate].
      destruct (List.length (neighbors cw mv) <? List.length (neighbors cw var));
        eapply Hgo; eauto.
Qed.

Lemma try_values_keeps recurse var (a0 : Assignment) :
  (forall a d r a' d', recurse a d = Ok ((r, a'), d') ->
     forall v, mem v a = true -> lookup v a' = lookup v a) ->
  mem var a0 = false ->
  forall vals cur d r a' d',
    (forall v, mem v a0 = true -> lookup v cur = lookup v a0) ->
    try_values cw recurse var vals cur d = Ok ((r, a'), d') ->
    forall v, mem v a0 = true -> lookup v a' = lookup v a0.
Proof.
  intros Hrec M0. induction vals as [|value rest IH];
    intros cur d r a' d' Hc H v Mv; simpl in H.
  - apply ret_Ok in H. destruct H as [[= -> ->] _]. auto.
  - assert (N : forall u, mem u a0 = true -> var <> u)
      by (intros u Mu ->; congruence).
    assert (H1 : forall u, mem u a0 = true ->
                 lookup u (update var value cur) = lookup u a0).
    { intros u Mu. rewrite lookup_update_neq by auto. auto. }
    apply bind_Ok in H. destruct H as (ok & d1 & G & H).
    apply lift_Ok in G. destruct G as [_ ->].
    destruct ok; [|apply (IH (update var value cur) d r a' d'); auto].
    apply bind_Ok in H. destruct H as ([r1 a1] & d2 & G & H). simpl in H.
    assert (H2 : forall u, mem u a0 = true -> lookup u a1 = lookup u a0).
    { intros u Mu. rewrite (Hrec _ _ _ _ _ G u).
      - auto.
      - apply mem_lookup. rewrite H1 by auto. now apply mem_lookup. }
    destruct r1 as [result|].
    + apply ret_Ok in H. destruct H as [[= -> ->] _]. auto.
    + apply (IH (pop var a1) d2 r a' d'); [|exact H|exact Mv].
      intros u Mu. rewrite lookup_pop_neq by auto. auto.
Qed.

Lemma backtrack_keeps fuel : forall a d r a' d',
  backtrack cw fuel a d = Ok ((r, a'), d') ->
  forall v, mem v a = true -> lookup v a' = lookup v a.
Proof.
  induction fuel as [|fuel IH]; intros a d r a' d' H v Mv; simpl in H;
    [discriminate|].
  destruct (assignment_complete cw a).
  - apply ret_Ok in H. destruct H as [[= -> ->] _]. reflexivity.
  - apply bind_Ok in H. destruct H as (var & d1 & G & H).
    destruct var as [var|]; [|discriminate].
    apply select_loop_unassigned in G. destruct G as [G | [_ M0]]; [discriminate|].
    apply bind_Ok in H. destruct H as (vals & d2 & _ & H).
    eapply (try_values_keeps (backtrack cw fuel) var a); eauto.
Qed.

(** X11 ([backtrack] leaves alone what it was given): whenever [backtrack]
    returns, with an assignment or with [None], every slot that was a key of
    the dictionary at the call is still a key and still has the word it had:
    the call adds, overwrites and pops only entries of slots that were
    unassigned when it was called. *)
Theorem backtrack_keeps_given fuel (a : Assignment) d r a' d' :
  backtrack cw fuel a d = Ok ((r, a'), d') ->
  forall v w, lookup v a = Some w -> lookup v a' = Some w.
Proof.
  intros H v w L. rewrite (backtrack_keeps _ _ _ _ _ _ H v); auto.
  apply mem_lookup. eauto.
Qed.

Lemma try_values_result recurse var :
  (forall a d res a' d', recurse a d = Ok ((Some res, a'), d') ->
     res = a' /\ assignment_complete cw res = true) ->
  forall vals cur d res a' d',
    try_values cw recurse var vals cur d = Ok ((Some res, a'), d') ->
    res = a' /\ assignment_complete cw res = true.
Proof.
  intros Hrec. induction vals as [|value rest IH];
    intros cur d res a' d' H; simpl in H.
  - apply ret_Ok in H. destruct H as [[=] _].
  - apply bind_Ok in H. destruct H as (ok & d1 & G & H).
    destruct ok; [|eapply IH; eauto].
    apply bind_Ok in H. destruct H as ([r1 a1] & d2 & G' & H). simpl in H.
    destruct r1 as [result|]; [|eapply IH; eauto].
    apply ret_Ok in H. destruct H as [[= -> ->] _]. eapply Hrec; eauto.
Qed.

(** X12 (what [backtrack] returns): an assignment returned by [backtrack] is
    the dictionary it was called with, as the call leaves it, and passes
    [assignment_complete]; no premise on the dictionary or the store is
    needed. *)
Theorem backtrack_returns_complete fuel (a : Assignment) d res a' d' :
  backtrack cw fuel a d = Ok ((Some res, a'), d') ->
  res = a' /\ assignment_complete cw res = true.
Proof.
  revert a d res a' d'. induction fuel as [|fuel IH];
    intros a d res a' d' H; simpl in H; [discriminate|].
  destruct (assignment_complete cw a) eqn:C.
  - apply ret_Ok in H. destruct H as [[= -> ->] _]. auto.
  - apply bind_Ok in H. destruct H as (var & d1 & G & H).
    destruct var as [var|]; [|discriminate].
    apply bind_Ok in H. destruct H as (vals & d2 & _ & H).
    eapply try_values_result; eauto.
Qed.

(** *** Termination *)

Lemma count_conflicts_returns var n word nws : forall e,
  count_conflicts cw var n word nws e <> OutOfFuel.
Proof.
  induction nws as [|nw rest IH]; intros e; simpl; [discriminate|].
  destruct (overlaps cw var n) as [[i j]|]; [|discriminate].
  destruct (String.get i word); [|discriminate].
  destruct (String.get j nw); [|discriminate].
  apply IH.
Qed.

Lemma count_eliminated_returns var a word ns : forall e d,
  count_eliminated cw var a word ns e d <> OutOfFuel.
Proof.
  induction ns as [|n rest IH]; intros e d; simpl; [discriminate|].
  destruct (mem n a); [apply IH|].
  unfold bind at 1, dom_get. destruct (lookup n d) as [nws|]; [|discriminate].
  unfold bind, lift.
  destruct (count_conflicts cw var n word nws e) eqn:E;
    [apply IH | discriminate | now apply count_conflicts_returns in E].
Qed.

Lemma eliminations_loop_returns var a ns ws : forall acc d,
  eliminations_loop cw var a ns ws acc d <> OutOfFuel.
Proof.
  induction ws as [|word rest IH]; intros acc d; simpl; [discriminate|].
  unfold bind.
  destruct (count_eliminated cw var a word ns 0 d) as [[e d1]| |] eqn:E;
    [apply IH | discriminate | now apply count_eliminated_returns in E].
Qed.

Lemma order_domain_values_returns var a d :
  order_domain_values cw var a d <> OutOfFuel.
Proof.
  unfold order_domain_values, bind at 1, dom_get.
  destruct (lookup var d) as [ws|]; [|discriminate].
  unfold bind.
  destruct (eliminations_loop cw var a (neighbors cw var) ws [] d)
    as [[el d1]| |] eqn:E;
    [discriminate | discriminate | now apply eliminations_loop_returns in E].
Qed.

Lemma select_loop_returns a vars : forall min min_var d,
  select_loop cw a vars min min_var d <> OutOfFuel.
Proof.
  induction vars as [|var rest IH]; intros min min_var d; simpl; [discriminate|].
  destruct (mem var a); [apply IH|].
  unfold bind, dom_get. destruct (lookup var d) as [ws|]; [|discriminate].
  destruct min as [m|]; [|apply IH].
  destruct (List.length ws <? m); [apply IH|].
  destruct (List.length ws =? m); [|apply IH].
  destruct min_var as [mv|]; [|discriminate].
  destruct (List.length (neighbors cw mv) <? List.length (neighbors cw var));
    apply IH.
Qed.

Lemma neighbors_agree_returns a var word ns :
  neighbors_agree cw a var word ns <> OutOfFuel.
Proof.
  induction ns as [|n rest IH]; simpl; [discriminate|].
  destruct (overlaps cw var n) as [[i j]|]; [|discriminate].
  destruct (lookup n a) as [wn|]; auto.
  destruct (String.get i word); [|discriminate].
  destruct (String.get j wn); [|discriminate].
  destruct (Ascii.eqb a0 a1); [auto | discriminate].
Qed.

Lemma consistent_returns a : consistent cw a <> OutOfFuel.
Proof.
  unfold consistent.
  destruct (negb (List.length a =? List.length (word_set (values a))));
    [discriminate|].
  induction (keys a) as [|var rest IH]; simpl; [discriminate|].
  destruct (lookup var a) as [word|]; [|discriminate].
  destruct (negb (String.length word =? Var.length var)); [discriminate|].
  destruct (neighbors_agree cw a var word (neighbors cw var)) as [[|]| |] eqn:E;
    [exact IH | discriminate | discriminate
     | now apply neighbors_agree_returns in E].
Qed.

Lemma filter_length_mono (A : Type) (f g : A -> bool) l :
  (forall x, In x l -> f x = true -> g x = true) ->
  List.length (filter f l) <= List.length (filter g l).
Proof.
  induction l as [|x l IH]; intros H; simpl; auto.
  assert (IH' : List.length (filter f l) <= List.length (filter g l))
    by (apply IH; intros y I; apply H; now right).
  destruct (f x) eqn:F.
  - rewrite (H x (or_introl eq_refl) F). simpl. lia.
  - destruct (g x); simpl; lia.
Qed.

Lemma filter_length_strict (A : Type) (f g : A -> bool) l x :
  (forall y, In y l -> f y = true -> g y = true) ->
  In x l -> f x = false -> g x = true ->
  List.length (filter f l) < List.length (filter g l).
Proof.
  induction l as [|y l IH]; intros H I F G; simpl; [contradiction|].
  assert (Hl : forall z, In z l -> f z = true -> g z = true)
    by (intros z Iz; apply H; now right).
  pose proof (filter_length_mono A f g l Hl) as Hm.
  destruct I as [-> | I].
  - rewrite F, G. simpl. lia.
  - specialize (IH Hl I F G).
    destruct (f y) eqn:Fy.
    + rewrite (H y (or_introl eq_refl) Fy). simpl. lia.
    + destruct (g y); simpl; lia.
Qed.

Lemma unassigned_lt (a b : Assignment) var :
  In var (variables cw) -> mem var a = false -> mem var b = true ->
  (forall v, mem v a = true -> mem v b = true) ->
  unassigned cw b < unassigned cw a.
Proof.
  intros I Ma Mb H. unfold unassigned.
  apply (filter_length_strict _ _ _ _ var); auto.
  - intros y _ Hy. apply negb_true_iff in Hy. apply negb_true_iff.
    destruct (mem y a) eqn:E; auto. rewrite (H y E) in Hy. discriminate.
  - now rewrite Mb.
  - now rewrite Ma.
Qed.

Lemma try_values_returns recurse var (a0 : Assignment) :
  (forall a d, unassigned cw a < unassigned cw a0 -> recurse a d <> OutOfFuel) ->
  (forall a d r a' d', recurse a d = Ok ((r, a'), d') ->
     forall v, mem v a = true -> lookup v a' = lookup v a) ->
  In var (variables cw) -> mem var a0 = false ->
  forall vals cur d,
    (forall v, mem v a0 = true -> mem v cur = true) ->
    try_values cw recurse var vals cur d <> OutOfFuel.
Proof.
  intros Hrec Hkeep Iv M0. induction vals as [|value rest IH];
    intros cur d Hc; simpl; [discriminate|].
  assert (H1 : forall v, mem v a0 = true ->
               mem v (update var value cur) = true).
  { intros v Mv. apply mem_lookup.
    rewrite lookup_update_neq by (intros ->; congruence).
    apply mem_lookup. auto. }
  assert (Hlt : unassigned cw (update var value cur) < unassigned cw a0).
  { apply (unassigned_lt a0 _ var); auto.
    apply mem_lookup. rewrite lookup_update_eq. eauto. }
  unfold bind at 1, lift.
  destruct (consistent cw (update var value cur)) as [ok| |] eqn:C;
    [|discriminate|now apply consistent_returns in C].
  destruct ok; [|now apply IH].
  unfold bind.
  destruct (recurse (update var value cur) d) as [[[r1 a1] d1]| |] eqn:R;
    [|discriminate|now apply Hrec in R].
  simpl. destruct r1 as [result|]; [discriminate|].
  apply IH. intros v Mv.
  assert (N : var <> v) by (intros ->; congruence).
  apply mem_lookup. rewrite lookup_pop_neq by auto.
  rewrite (Hkeep _ _ _ _ _ R v) by auto. apply mem_lookup. auto.
Qed.

Lemma backtrack_fuel fuel : forall a d,
  unassigned cw a < fuel -> backtrack cw fuel a d <> OutOfFuel.
Proof.
  induction fuel as [|fuel IH]; intros a d Hf; [lia|]. simpl.
  destruct (assignment_complete cw a); [discriminate|].
  unfold bind at 1.
  destruct (select_unassigned_variable cw a d) as [[var d1]| |] eqn:S;
    [|discriminate|now apply select_loop_returns in S].
  destruct var as [var|]; [|discriminate].
  apply select_loop_unassigned in S.
  destruct S as [S | [Iv M0]]; [discriminate|].
  unfold bind.
  destruct (order_domain_values cw var a d1) as [[vals d2]| |] eqn:O;
    [|discriminate|now apply order_domain_values_returns in O].
  apply (try_values_returns (backtrack cw fuel) var a); auto.
  - intros a1 d3 Hlt. apply IH. lia.
  - apply backtrack_keeps.
Qed.

Lemma unassigned_le (a : Assignment) :
  unassigned cw a <= List.length (variables cw).
Proof. apply filter_length_le. Qed.

Lemma node_loop_total fresh vars : forall d,
  (forall v, In v vars -> lookup v d <> None) ->
  exists d', node_loop fresh vars d = Ok (tt, d').
Proof.
  induction vars as [|var rest IH]; intros d Hk; simpl.
  - exists d. reflexivity.
  - destruct (lookup var d) as [wv|] eqn:Ev;
      [|exfalso; apply (Hk var); simpl; auto].
    unfold bind, dom_get, dom_set. rewrite Ev. apply IH.
    intros v Hv. destruct (Var.eq_dec var v) as [<-|N].
    + now rewrite lookup_update_eq.
    + rewrite lookup_update_neq by auto. apply Hk; simpl; auto.
Qed.

(** X13 (the search terminates): the recursion of [backtrack] is at most as
    deep as there are slots outside the assignment, so with more fuel than
    that the call ends, by returning or by raising; and for every store and
    every iteration order of the sets there is an amount of fuel from which
    on [solve] ends. *)
Theorem search_terminates :
  (forall fuel a d,
      unassigned cw a < fuel -> backtrack cw fuel a d <> OutOfFuel) /\
  (forall fresh d, exists n, forall fuel, n <= fuel ->
      solve cw fresh fuel d <> OutOfFuel).
Proof.
  split; [intros; now apply backtrack_fuel|].
  intros fresh d.
  destruct (node_loop_total fresh (keys d) d) as (d1 & Hrun).
  { intros v Hv. now apply lookup_In_keys. }
  exists (S (List.length (initial_arcs cw) +
             size d1 * S (List.length (variables cw))) +
          S (List.length (variables cw))).
  intros fuel Hf. unfold solve, bind at 1.
  unfold enforce_node_consistency. rewrite Hrun.
  unfold bind at 1.
  destruct (ac3 cw fuel None d1) as [[[b q] d2]| |] eqn:A; [|discriminate|].
  - unfold bind.
    destruct (backtrack cw fuel [] d2) as [[r d3]| |] eqn:B;
      [discriminate | discriminate |].
    apply backtrack_fuel in B; auto.
    pose proof (unassigned_le []). lia.
  - simpl in A. apply ac3_loop_fuel in A; auto. lia.
Qed.

(** *** A slot without candidates *)

Lemma keys_init_domains : keys (init_domains cw) = variables cw.
Proof.
  unfold keys, init_domains. rewrite map_map. simpl. apply map_id.
Qed.

Lemma order_domain_values_empty var a d :
  lookup var d = Some [] -> order_domain_values cw var a d = Ok ([], d).
Proof.
  intros L. unfold order_domain_values, bind, dom_get. now rewrite L.
Qed.

(** With a slot [s] whose domain is empty in a store that has every slot,
    the search started on the empty dictionary fails at once. *)
Lemma backtrack_empty_domain fuel d s :
  In s (variables cw) -> lookup s d = Some [] ->
  (forall v, In v (variables cw) -> lookup v d <> None) ->
  backtrack cw (S fuel) [] d = Ok ((None, []), d).
Proof.
  intros Is Ls Hk. simpl.
  assert (C : assignment_complete cw [] = false).
  { destruct (assignment_complete cw []) eqn:E; auto.
    unfold assignment_complete in E.
    destruct (proj1 (complete_loop_iff _ _) E s Is) as (w & L & _).
    discriminate. }
  rewrite C.
  destruct (select_loop_best cw [] d (variables cw) (fun _ => False) None None)
    as (r & m & R & B).
  { simpl. split; [reflexivity | intros u []]. }
  { intros v Iv _. now apply Hk. }
  unfold bind at 1, select_unassigned_variable. rewrite R.
  destruct r as [v|]; simpl in B.
  - destruct B as (_ & [[] | Iv] & _ & H).
    destruct (H s (or_intror Is) eq_refl) as [Hle _].
    rewrite (dom_of_lookup _ _ _ Ls) in Hle. simpl in Hle.
    assert (Lv : lookup v d = Some []).
    { destruct (lookup v d) as [ws|] eqn:L; [|now apply Hk in Iv].
      rewrite (dom_of_lookup _ _ _ L) in Hle.
      destruct ws; [reflexivity | simpl in Hle; lia]. }
    unfold bind. rewrite (order_domain_values_empty v [] d Lv). reflexivity.
  - destruct B as (_ & H). specialize (H s (or_intror Is)). discriminate.
Qed.

(** X14 (a slot without candidates): when some slot of the crossword has no
    word of its length in the wordlist, [solve] on the initial store returns
    [None], from some amount of fuel on, whatever [ac3] returns on the way
    and in whatever order the sets of node consistency iterate. *)
Theorem solve_no_candidate fresh s :
  iterates_set fresh ->
  In s (variables cw) ->
  (forall w, In w (words cw) -> String.length w <> Var.length s) ->
  exists n, forall fuel, n <= fuel ->
    exists d', solve cw fresh fuel (init_domains cw) = Ok (None, d').
Proof.
  intros F Is Hw.
  destruct (node_loop_spec fresh F (keys (init_domains cw)) (init_domains cw))
    as (d1 & Hrun & Hk1 & Hdom).
  { intros v Hv. now apply lookup_In_keys. }
  assert (K1 : forall v, In v (variables cw) -> lookup v d1 <> None).
  { intros v Iv. apply lookup_In_keys. rewrite Hk1, keys_init_domains. exact Iv. }
  assert (L1 : lookup s d1 = Some []).
  { destruct (Hdom s (words cw) (lookup_init_domains cw s Is))
      as (ws' & L & Hin & _).
    rewrite L. f_equal. destruct ws' as [|w ws']; auto.
    exfalso. destruct Hin as [_ Hin].
    { rewrite keys_init_domains. exact Is. }
    destruct (Hin w) as [Hin' _]. destruct (Hin' (or_introl eq_refl)) as [I E].
    now apply (Hw w). }
  exists (S (List.length (initial_arcs cw) +
             size d1 * S (List.length (variables cw)))).
  intros fuel Hf.
  destruct (ac3_loop_total cw fuel (initial_arcs cw) d1) as (r & q' & d2 & A).
  { apply initial_arcs_proper. }
  { exact K1. }
  { lia. }
  destruct (ac3_frame cw fuel None d1 r q' d2 A) as [Hk2 Hsub].
  assert (K2 : forall v, In v (variables cw) -> lookup v d2 <> None).
  { intros v Iv. apply lookup_In_keys. rewrite Hk2. apply lookup_In_keys. auto. }
  assert (L2 : lookup s d2 = Some []).
  { destruct (lookup s d2) as [ws|] eqn:L; [|now apply K2 in Is].
    f_equal. destruct ws as [|w ws]; auto. exfalso.
    specialize (Hsub s w). rewrite (dom_of_lookup _ _ _ L) in Hsub.
    rewrite (dom_of_lookup _ _ _ L1) in Hsub. apply Hsub. now left. }
  exists d2. unfold solve, bind at 1, enforce_node_consistency. rewrite Hrun.
  unfold bind at 1. simpl in A |- *. rewrite A.
  destruct fuel as [|fuel]; [lia|].
  unfold bind. rewrite (backtrack_empty_domain fuel d2 s Is L2 K2). reflexivity.
Qed.

End SearchMore.

(** ** letter_grid *)

Section Rendering.

Lemma list_set_length (A : Type) n (x : A) l :
  List.length (list_set n x l) = List.length l.
Proof.
  revert n. induction l as [|y l IH]; intros [|n]; simpl; auto.
Qed.

Lemma nth_error_list_set_eq (A : Type) n (x : A) l :
  n < List.length l -> nth_error (list_set n x l) n = Some x.
Proof.
  revert n. induction l as [|y l IH]; intros [|n] H; simpl in *; try lia; auto.
  apply IH. lia.
Qed.

Lemma nth_error_list_set_neq (A : Type) n m (x : A) l :
  n <> m -> nth_error (list_set n x l) m = nth_error l m.
Proof.
  revert n m. induction l as [|y l IH]; intros [|n] [|m] H; simpl; auto;
    try congruence.
Qed.

Lemma list_set_In (A : Type) n (x y : A) l :
  In y (list_set n x l) -> y = x \/ In y l.
Proof.
  revert n. induction l as [|z l IH]; intros [|n]; simpl; auto.
  - intros [<- | H]; auto.
  - intros [<- | H]; auto. destruct (IH n H); auto.
Qed.

Lemma has_shape_row h w g i row :
  has_shape h w g -> nth_error g i = Some row -> List.length row = w.
Proof. intros [_ H] E. apply H. eapply nth_error_In; eauto. Qed.

Lemma grid_set_inv h w g i j c g' :
  has_shape h w g -> grid_set g i j c = Ok g' ->
  i < h /\ j < w /\ has_shape h w g' /\
  grid_get g' i j = Some (Some c) /\
  forall i' j', (i', j') <> (i, j) -> grid_get g' i' j' = grid_get g i' j'.
Proof.
  intros S H. unfold grid_set in H.
  destruct (nth_error g i) as [row|] eqn:E; [|discriminate].
  destruct (Nat.ltb_spec j (List.length row)) as [Hj|Hj]; [|discriminate].
  injection H as <-.
  pose proof (has_shape_row _ _ _ _ _ S E) as Hr.
  assert (Hi : i < List.length g) by (apply nth_error_Some; congruence).
  destruct S as [Sh Sw].
  split; [lia|]. split; [lia|]. split; [|split].
  - split; [now rewrite list_set_length|].
    intros r Ir. apply list_set_In in Ir. destruct Ir as [-> | Ir]; auto.
    now rewrite list_set_length.
  - unfold grid_get. rewrite nth_error_list_set_eq by auto.
    now apply nth_error_list_set_eq.
  - intros i' j' N. unfold grid_get.
    destruct (Nat.eq_dec i i') as [<- | Ni].
    + rewrite nth_error_list_set_eq by auto. rewrite E.
      apply nth_error_list_set_neq. congruence.
    + now rewrite nth_error_list_set_neq by auto.
Qed.

Lemma grid_set_inside h w g i j c :
  has_shape h w g -> i < h -> j < w -> exists g', grid_set g i j c = Ok g'.
Proof.
  intros S Hi Hj. unfold grid_set.
  destruct (nth_error g i) as [row|] eqn:E.
  - rewrite (has_shape_row _ _ _ _ _ S E).
    destruct (Nat.ltb_spec j w); [eauto | lia].
  - apply nth_error_None in E. destruct S. lia.
Qed.

Lemma grid_set_outside h w g i j c :
  has_shape h w g -> ~ (i < h /\ j < w) -> grid_set g i j c = Raise IndexError.
Proof.
  intros S N. unfold grid_set.
  destruct (nth_error g i) as [row|] eqn:E; auto.
  rewrite (has_shape_row _ _ _ _ _ S E).
  destruct (Nat.ltb_spec j w); auto.
  exfalso. apply N. split; auto.
  destruct S as [<- _]. apply nth_error_Some. congruence.
Qed.

Lemma write_word_all variable word : forall k g,
  write_word variable word k g = write_all (word_cells variable word k) g.
Proof.
  induction word as [|c rest IH]; intros k g; simpl; auto.
  destruct (grid_set g _ _ c); auto.
Qed.

Lemma write_all_app ws1 : forall ws2 g,
  write_all (ws1 ++ ws2) g =
  match write_all ws1 g with
  | Ok g' => write_all ws2 g'
  | Raise e => Raise e
  | OutOfFuel => OutOfFuel
  end.
Proof.
  induction ws1 as [|[[i j] c] rest IH]; intros ws2 g; simpl; auto.
  destruct (grid_set g i j c); auto.
Qed.

Lemma write_entries_all a : forall g,
  write_entries a g = write_all (writes a) g.
Proof.
  induction a as [|[variable word] rest IH]; intros g; simpl; auto.
  unfold writes. simpl. rewrite write_all_app, write_word_all.
  destruct (write_all (word_cells variable word 0) g); auto.
Qed.

Lemma word_cells_In variable word : forall k r c ch,
  In (r, c, ch) (word_cells variable word k) <->
  exists n, String.get n word = Some ch /\ cell variable (k + n) = (r, c).
Proof.
  induction word as [|c0 rest IH]; intros k r c ch; simpl.
  - split; [intros [] | intros (n & H & _); discriminate].
  - rewrite IH. split.
    + intros [E | (n & G & C)].
      * exists 0. injection E as <- <- <-. rewrite Nat.add_0_r.
        split; reflexivity.
      * exists (S n). split; auto. now rewrite Nat.add_succ_r.
    + intros ([|n] & G & C).
      * left. injection G as <-. rewrite Nat.add_0_r in C.
        unfold cell in C. now rewrite C.
      * right. exists n. split; auto. now rewrite Nat.add_succ_r in C.
Qed.

Lemma writes_In a r c ch :
  In (r, c, ch) (writes a) <->
  exists v w k, In (v, w) a /\ String.get k w = Some ch /\ cell v k = (r, c).
Proof.
  unfold writes. rewrite in_flat_map. split.
  - intros ([v w] & I & H). apply word_cells_In in H.
    destruct H as (n & G & C). exists v, w, n. auto.
  - intros (v & w & k & I & G & C). exists (v, w). split; auto.
    apply word_cells_In. exists k. auto.
Qed.

Lemma write_all_inv h w ws : forall g g',
  has_shape h w g -> write_all ws g = Ok g' ->
  has_shape h w g' /\
  (forall i j c, In (i, j, c) ws -> i < h /\ j < w) /\
  (forall i j ch, grid_get g' i j = Some (Some ch) ->
     In (i, j, ch) ws \/ grid_get g i j = Some (Some ch)) /\
  (forall i j, (forall ch, ~ In (i, j, ch) ws) ->
     grid_get g' i j = grid_get g i j).
Proof.
  induction ws as [|[[i0 j0] c0] rest IH]; intros g g' S H; simpl in H.
  - injection H as <-. split; [exact S|]. split; [|split]; auto.
    intros i j c [].
  - destruct (grid_set g i0 j0 c0) as [g1| |] eqn:E; try discriminate.
    destruct (grid_set_inv _ _ _ _ _ _ _ S E) as (Hi & Hj & S1 & G1 & O1).
    destruct (IH _ _ S1 H) as (S' & Hb & Hl & Hu).
    split; [exact S'|]. split; [|split].
    + intros i j c [[= <- <- <-] | I]; auto. eapply Hb; eauto.
    + intros i j ch G. destruct (Hl i j ch G) as [I | G'].
      * left. now right.
      * destruct (Nat.eq_dec i i0) as [-> | Ni];
          [destruct (Nat.eq_dec j j0) as [-> | Nj]|].
        -- left. left. rewrite G1 in G'. now injection G' as <-.
        -- right. rewrite <- O1; auto. congruence.
        -- right. rewrite <- O1; auto. congruence.
    + intros i j Hn. rewrite Hu.
      * apply O1. intros [= -> ->]. apply (Hn c0). now left.
      * intros ch I. apply (Hn ch). now right.
Qed.

Lemma cell_written_dec (ws : list (nat * nat * ascii)) i j :
  (exists ch, In (i, j, ch) ws) \/ (forall ch, ~ In (i, j, ch) ws).
Proof.
  induction ws as [|[[i0 j0] c0] rest IH].
  - right. intros ch [].
  - destruct IH as [(ch & I) | N].
    + left. exists ch. now right.
    + destruct (Nat.eq_dec i i0) as [-> | Ni];
        [destruct (Nat.eq_dec j j0) as [-> | Nj]|].
      * left. exists c0. now left.
      * right. intros ch [[=] | I]; [congruence | now apply (N ch)].
      * right. intros ch [[=] | I]; [congruence | now apply (N ch)].
Qed.

Lemma write_all_agree h w ws : forall g g',
  has_shape h w g -> write_all ws g = Ok g' ->
  (forall i j c c', In (i, j, c) ws -> In (i, j, c') ws -> c = c') ->
  forall i j c, In (i, j, c) ws -> grid_get g' i j = Some (Some c).
Proof.
  induction ws as [|[[i0 j0] c0] rest IH]; intros g g' S H A i j c I;
    simpl in H; [destruct I|].
  destruct (grid_set g i0 j0 c0) as [g1| |] eqn:E; try discriminate.
  destruct (grid_set_inv _ _ _ _ _ _ _ S E) as (Hi & Hj & S1 & G1 & O1).
  assert (A' : forall i j c c', In (i, j, c) rest -> In (i, j, c') rest -> c = c').
  { intros. eapply A; right; eauto. }
  destruct (cell_written_dec rest i j) as [(ch & Ich) | N].
  - assert (ch = c) by (eapply A; [right; eauto | eauto]). subst ch.
    eapply IH; eauto.
  - destruct I as [[= <- <- <-] | I]; [|now apply N in I].
    destruct (write_all_inv _ _ _ _ _ S1 H) as (_ & _ & _ & Hu).
    rewrite Hu; auto.
Qed.

Lemma write_all_inside h w ws : forall g,
  has_shape h w g ->
  (forall i j c, In (i, j, c) ws -> i < h /\ j < w) ->
  exists g', write_all ws g = Ok g'.
Proof.
  induction ws as [|[[i0 j0] c0] rest IH]; intros g S Hb; simpl; [eauto|].
  destruct (Hb i0 j0 c0 (or_introl eq_refl)) as [Hi Hj].
  destruct (grid_set_inside h w g i0 j0 c0 S Hi Hj) as (g1 & E). rewrite E.
  destruct (grid_set_inv _ _ _ _ _ _ _ S E) as (_ & _ & S1 & _).
  apply IH; auto. intros i j c I. apply (Hb i j c). now right.
Qed.

Lemma write_all_outside h w ws : forall g i j c,
  has_shape h w g -> In (i, j, c) ws -> ~ (i < h /\ j < w) ->
  write_all ws g = Raise IndexError.
Proof.
  induction ws as [|[[i0 j0] c0] rest IH]; intros g i j c S I N; simpl;
    [destruct I|].
  destruct (grid_set g i0 j0 c0) as [g1|e|] eqn:E.
  - destruct (grid_set_inv _ _ _ _ _ _ _ S E) as (Hi & Hj & S1 & _).
    destruct I as [[= -> -> ->] | I]; [exfalso; auto|].
    eapply IH; eauto.
  - unfold grid_set in E. destruct (nth_error g i0); [|congruence].
    destruct (j0 <? List.length l); congruence.
  - unfold grid_set in E. destruct (nth_error g i0); [|congruence].
    destruct (j0 <? List.length l); congruence.
Qed.

Lemma blank_grid_shape h w : has_shape h w (blank_grid h w).
Proof.
  unfold blank_grid. split; [apply repeat_length|].
  intros row I. apply repeat_spec in I. subst row. apply repeat_length.
Qed.

Lemma blank_grid_get h w i j :
  grid_get (blank_grid h w) i j = if (i <? h) && (j <? w) then Some None else None.
Proof.
  unfold grid_get, blank_grid.
  destruct (Nat.ltb_spec i h) as [Hi|Hi]; simpl.
  - rewrite nth_error_repeat by auto.
    destruct (Nat.ltb_spec j w) as [Hj|Hj].
    + now apply nth_error_repeat.
    + apply nth_error_None. now rewrite repeat_length.
  - replace (nth_error (repeat (repeat None w) h) i) with (@None (list (option ascii))); auto.
    symmetry. apply nth_error_None. now rewrite repeat_length.
Qed.

(** X15 ([letter_grid], bounds): when every letter of every assigned word
    falls on a cell of the grid, [letter_grid] returns a grid of [height]
    rows of [width] cells; when some letter falls outside, it raises
    IndexError. *)
Theorem letter_grid_bounds height width (a : Assignment) :
  ((forall v w k ch, In (v, w) a -> String.get k w = Some ch ->
      fst (cell v k) < height /\ snd (cell v k) < width) ->
   exists g, letter_grid height width a = Ok g /\ has_shape height width g) /\
  ((exists v w k ch, In (v, w) a /\ String.get k w = Some ch /\
      ~ (fst (cell v k) < height /\ snd (cell v k) < width)) ->
   letter_grid height width a = Raise IndexError).
Proof.
  unfold letter_grid. rewrite write_entries_all. split.
  - intros Hb.
    destruct (write_all_inside height width (writes a) (blank_grid height width))
      as (g & E).
    + apply blank_grid_shape.
    + intros i j c I. apply writes_In in I.
      destruct I as (v & w & k & Ia & G & C).
      specialize (Hb v w k c Ia G). rewrite C in Hb. exact Hb.
    + exists g. split; auto.
      eapply write_all_inv; eauto. apply blank_grid_shape.
  - intros (v & w & k & ch & Ia & G & N).
    apply (write_all_outside height width _ _ (fst (cell v k)) (snd (cell v k)) ch).
    + apply blank_grid_shape.
    + apply writes_In. exists v, w, k.
      split; [exact Ia|]. split; [exact G|]. now destruct (cell v k).
    + exact N.
Qed.

(** X16 ([letter_grid], the letters): in the grid that [letter_grid] returns,
    every letter is the [k]-th letter of a word of the assignment, on the
    [k]-th cell of its slot; a cell of the grid that no assigned word reaches
    is empty; and when the assigned words agree on the cells they share,
    every cell of every assigned slot shows the letter of its word. *)
Theorem letter_grid_letters height width (a : Assignment) g :
  letter_grid height width a = Ok g ->
  (forall r c ch, grid_get g r c = Some (Some ch) ->
     exists v w k, In (v, w) a /\ String.get k w = Some ch /\ cell v k = (r, c)) /\
  (forall r c, r < height -> c < width ->
     (forall v w k ch, In (v, w) a -> String.get k w = Some ch ->
        cell v k <> (r, c)) ->
     grid_get g r c = Some None) /\
  ((forall v w k ch v' w' k' ch',
       In (v, w) a -> In (v', w') a ->
       String.get k w = Some ch -> String.get k' w' = Some ch' ->
       cell v k = cell v' k' -> ch = ch') ->
   forall v w k ch, In (v, w) a -> String.get k w = Some ch ->
     grid_get g (fst (cell v k)) (snd (cell v k)) = Some (Some ch)).
Proof.
  unfold letter_grid. rewrite write_entries_all. intros H.
  pose proof (blank_grid_shape height width) as S0.
  destruct (write_all_inv _ _ _ _ _ S0 H) as (S & Hb & Hl & Hu).
  split; [|split].
  - intros r c ch G. destruct (Hl r c ch G) as [I | G0].
    + now apply writes_In.
    + rewrite blank_grid_get in G0.
      destruct ((r <? height) && (c <? width)); discriminate.
  - intros r c Hr Hc Hn. rewrite Hu.
    + rewrite blank_grid_get.
      destruct (Nat.ltb_spec r height); [|lia].
      destruct (Nat.ltb_spec c width); [reflexivity | lia].
    + intros ch I. apply writes_In in I.
      destruct I as (v & w & k & Ia & G & C). now apply (Hn v w k ch).
  - intros A v w k ch Ia G.
    apply (write_all_agree _ _ _ _ _ S0 H).
    + intros i j c c' I I'. apply writes_In in I, I'.
      destruct I as (v1 & w1 & k1 & I1 & G1 & C1).
      destruct I' as (v2 & w2 & k2 & I2 & G2 & C2).
      apply (A v1 w1 k1 c v2 w2 k2 c'); auto. congruence.
    + apply writes_In. exists v, w, k.
      split; [exact Ia|]. split; [exact G|]. now destruct (cell v k).
Qed.

End Rendering.

(** ** The further properties on concrete crosswords *)

Section MoreExamples.
Import Example.

(** The revision of [(A, B)] in the node-consistent store of [cw]. *)
Lemma revise_exact_witness :
  exists b xs',
    revise cw A B filtered = Ok (b, update A xs' filtered) /\
    (forall w, In w xs' <->
               In w ["DB"; "AA"; "BC"]%string /\
               exists wy, In wy ["DB"; "AA"; "BC"]%string /\ agree 0 1 w wy) /\
    (b = true <->
     exists w, In w ["DB"; "AA"; "BC"]%string /\
               ~ exists wy, In wy ["DB"; "AA"; "BC"]%string /\ agree 0 1 w wy).
Proof.
  apply (revise_exact cw A B 0 1 filtered
           ["DB"; "AA"; "BC"]%string ["DB"; "AA"; "BC"]%string
           eq_refl eq_refl eq_refl).
Defined.

(** The four edge cases of [revise] on [cw]. *)
Lemma revise_edges_witness :
  revise cw A A filtered = Ok (false, filtered) /\
  revise cw A B [] = Raise KeyError /\
  revise cw A B [(A, [])] = Ok (false, [(A, [])]) /\
  revise cw A B [(A, ["AA"%string])] = Raise KeyError.
Proof.
  split; [|split; [|split]].
  - apply (proj1 (revise_edges cw A A filtered)). reflexivity.
  - apply (proj1 (proj2 (revise_edges cw A B []))).
    + simpl. discriminate.
    + reflexivity.
  - apply (proj1 (proj2 (proj2 (revise_edges cw A B [(A, [])])))).
    + simpl. discriminate.
    + reflexivity.
  - apply (proj2 (proj2 (proj2 (revise_edges cw A B [(A, ["AA"%string])])))
             "AA"%string []).
    + simpl. discriminate.
    + reflexivity.
    + reflexivity.
Defined.

(** Node consistency twice on [mixed], with sets that iterate in the reverse
    of the order of the additions. *)
Lemma enforce_node_consistency_idempotent_witness :
  exists d1 d2,
    enforce_node_consistency reverse_order (init_domains mixed) = Ok (tt, d1) /\
    enforce_node_consistency reverse_order d1 = Ok (tt, d2) /\
    keys d2 = keys d1 /\
    forall s ws, lookup s d1 = Some ws ->
      exists ws', lookup s d2 = Some ws' /\ Permutation ws ws'.
Proof.
  exact (enforce_node_consistency_idempotent reverse_order (init_domains mixed)
           reverse_order_ok).
Defined.

(** AC-3 on the node-consistent store of [cw] only drops words. *)
Lemma ac3_only_shrinks_witness :
  keys pruned = keys filtered /\
  forall z ws', lookup z pruned = Some ws' ->
    exists ws, lookup z filtered = Some ws /\ forall w, In w ws' -> In w ws.
Proof.
  apply (ac3_only_shrinks cw 5 None filtered true [] pruned).
  vm_compute. reflexivity.
Defined.

(** AC-3 returns on the node-consistent store of [cw]. *)
Lemma ac3_returns_witness :
  exists n, forall fuel, n <= fuel ->
    exists r q' d', ac3 cw fuel None filtered = Ok ((r, q'), d').
Proof.
  apply (ac3_returns cw filtered).
  intros v [<- | [<- | []]]; simpl; discriminate.
Defined.

(** A second run of AC-3 on [cw] changes nothing. *)
Lemma ac3_idempotent_witness :
  ac3 cw 3 None pruned = Ok ((true, []), pruned).
Proof.
  apply (ac3_idempotent cw 5 filtered [] pruned example_symmetric).
  - intros v [<- | [<- | []]]; simpl; discriminate.
  - vm_compute. reflexivity.
  - simpl. lia.
Defined.

(** The filling of [cw] is complete. *)
Lemma assignment_complete_iff_witness :
  assignment_complete cw solution = true.
Proof.
  apply (proj2 (assignment_complete_iff cw solution)).
  intros v [<- | [<- | []]]; eexists; (split; [reflexivity | discriminate]).
Defined.

(** The filling of [cw] passes the check; CAT used twice fails it. *)
Lemma consistent_iff_witness :
  (NoDup (values solution) /\
   (forall v w, lookup v solution = Some w -> String.length w = Var.length v) /\
   (forall x y i j wx wy,
       In y (variables cw) -> x <> y -> overlaps cw x y = Some (i, j) ->
       lookup x solution = Some wx -> lookup y solution = Some wy ->
       agree i j wx wy)) /\
  consistent twin [(T1, "CAT"%string); (T2, "CAT"%string)] = Ok false.
Proof.
  split.
  - apply (proj1 (proj1 (consistent_iff cw solution))).
    vm_compute. reflexivity.
  - apply (proj2 (consistent_iff twin [(T1, "CAT"%string); (T2, "CAT"%string)])).
    intros N. inversion N as [|w ws NI _]. apply NI. simpl. auto.
Defined.

(** The choice among the two slots of [cw] in the arc-consistent store. *)
Lemma select_unassigned_variable_best_witness :
  exists r, select_unassigned_variable cw [] pruned = Ok (r, pruned) /\
    match r with
    | None => forall u, In u (variables cw) -> mem u (@nil (Var.t * string)) = true
    | Some v =>
        In v (variables cw) /\ mem v (@nil (Var.t * string)) = false /\
        forall u, In u (variables cw) -> mem u (@nil (Var.t * string)) = false ->
          List.length (dom_of pruned v) <= List.length (dom_of pruned u) /\
          (List.length (dom_of pruned u) = List.length (dom_of pruned v) ->
           List.length (neighbors cw u) <= List.length (neighbors cw v))
    end.
Proof.
  apply (select_unassigned_variable_best cw [] pruned).
  intros v [<- | [<- | []]] _; simpl; discriminate.
Defined.

(** In the node-consistent store of [cw] the word DB of [A] rules out three
    words of [B] and comes last. *)
Lemma order_domain_values_sorted_witness :
  filtered = filtered /\
  exists ws, lookup A filtered = Some ws /\
             Permutation ws ["AA"; "BC"; "DB"]%string /\
             Sorted (fun w1 w2 => eliminated cw filtered [] A w1 <=
                                  eliminated cw filtered [] A w2)
                    ["AA"; "BC"; "DB"]%string.
Proof.
  apply (order_domain_values_sorted cw A [] filtered
           ["AA"; "BC"; "DB"]%string filtered).
  vm_compute. reflexivity.
Defined.

(** The search of [cw] started with BC in [A] keeps that entry. *)
Lemma backtrack_keeps_given_witness :
  match backtrack cw 5 [(A, "BC"%string)] pruned with
  | Ok ((_, a'), _) => lookup A a' = Some "BC"%string
  | _ => False
  end.
Proof.
  destruct (backtrack cw 5 [(A, "BC"%string)] pruned)
    as [[[r a'] d']| e |] eqn:E.
  - exact (backtrack_keeps_given cw 5 [(A, "BC"%string)] pruned r a' d' E
             A "BC"%string eq_refl).
  - vm_compute in E. discriminate.
  - vm_compute in E. discriminate.
Defined.

(** The assignment returned for the isolated slot is complete. *)
Lemma backtrack_returns_complete_witness :
  [(S, "WORD"%string)] = [(S, "WORD"%string)] /\
  assignment_complete single [(S, "WORD"%string)] = true.
Proof.
  apply (backtrack_returns_complete single 3 [] [(S, ["WORD"; "GAME"]%string)]
           [(S, "WORD"%string)] [(S, "WORD"%string)]
           [(S, ["WORD"; "GAME"]%string)]).
  vm_compute. reflexivity.
Defined.

(** Three units of fuel are enough for the two slots of [cw]. *)
Lemma search_terminates_witness :
  backtrack cw 3 [] pruned <> OutOfFuel.
Proof.
  apply (proj1 (search_terminates cw)).
  vm_compute. lia.
Defined.

(** The slot of length 4 of [short] has no candidate: no filling. *)
Lemma solve_no_candidate_witness :
  exists n, forall fuel, n <= fuel ->
    exists d',
      solve short reverse_order fuel (init_domains short) = Ok (None, d').
Proof.
  apply (solve_no_candidate short reverse_order S reverse_order_ok).
  - simpl. auto.
  - intros w [<- | [<- | []]]; simpl; discriminate.
Defined.

(** The filling of [cw] fits a grid of two rows and two columns, and does
    not fit a grid of one row. *)
Lemma letter_grid_bounds_witness :
  (exists g, letter_grid 2 2 solution = Ok g /\ has_shape 2 2 g) /\
  letter_grid 1 2 solution = Raise IndexError.
Proof.
  split.
  - apply (proj1 (letter_grid_bounds 2 2 solution)).
    intros v w k ch [E | [E | []]] G; injection E as <- <-;
      destruct k as [|[|k]]; simpl in G; try discriminate; simpl; lia.
  - apply (proj2 (letter_grid_bounds 1 2 solution)).
    exists A, "BC"%string, 0, "B"%char.
    split; [left; reflexivity|]. split; [reflexivity|]. simpl. lia.
Defined.

(** On the grid of the filling of [cw] the blocked cell (0, 1) is empty. *)
Lemma letter_grid_letters_witness :
  grid_get [[Some "D"%char; None]; [Some "B"%char; Some "C"%char]] 0 1 =
  Some None.
Proof.
  apply (proj1 (proj2 (letter_grid_letters 2 2 solution
                         [[Some "D"%char; None]; [Some "B"%char; Some "C"%char]]
                         eq_refl))); [lia | lia |].
  intros v w k ch [E | [E | []]] G; injection E as <- <-;
    destruct k as [|[|k]]; simpl in G; try discriminate; simpl; congruence.
Defined.

End MoreExamples.

(** ** No exception on a well-formed crossword *)

Section NeverRaises.
Variable cw : Crossword.
Hypothesis wf : well_formed cw.

Lemma get_in_range w : forall i,
  i < String.length w -> exists c, String.get i w = Some c.
Proof.
  induction w as [|c w IH]; intros i H; simpl in H; [lia|].
  destruct i as [|i]; simpl; [eauto|]. apply IH. lia.
Qed.

Lemma fits_update (a : Assignment) var value :
  fits a -> String.length value = Var.length var -> fits (update var value a).
Proof.
  intros F L. induction a as [|[k w0] a IH]; simpl.
  - intros v w [[= <- <-] | []]. exact L.
  - assert (Fa : fits a) by (intros v w I; apply F; now right).
    destruct (Var.eqb var k) eqn:E.
    + apply VarFacts.eqb_eq in E. subst k.
      intros v w [[= <- <-] | I]; [exact L | apply F; now right].
    + intros v w [[= <- <-] | I]; [apply F; now left | now apply IH].
Qed.

Lemma fits_pop (a : Assignment) var : fits a -> fits (pop var a).
Proof.
  intros F. induction a as [|[k w0] a IH]; simpl; [exact F|].
  assert (Fa : fits a) by (intros v w I; apply F; now right).
  destruct (Var.eqb var k); [exact Fa|].
  intros v w [[= <- <-] | I]; [apply F; now left | now apply IH].
Qed.

Lemma neighbors_agree_ok (a : Assignment) var word ns :
  fits a -> String.length word = Var.length var ->
  (forall n, In n ns -> In n (neighbors cw var)) ->
  exists b, neighbors_agree cw a var word ns = Ok b.
Proof.
  intros F L. induction ns as [|n rest IH]; intros Hn; simpl; [eauto|].
  assert (IH' : exists b, neighbors_agree cw a var word rest = Ok b)
    by (apply IH; intros m I; apply Hn; now right).
  destruct (proj1 (neighbors_In cw var n) (Hn n (or_introl eq_refl)))
    as (_ & _ & O).
  destruct (overlaps cw var n) as [[i j]|] eqn:E; [|congruence].
  destruct (proj1 wf var n i j E) as [Hi Hj].
  destruct (lookup n a) as [wn|] eqn:Ln; [|exact IH'].
  destruct (get_in_range word i) as (c1 & G1); [lia|].
  destruct (get_in_range wn j) as (c2 & G2).
  { rewrite (F n wn (lookup_In _ _ _ _ Ln)). exact Hj. }
  rewrite G1, G2. destruct (Ascii.eqb c1 c2); [exact IH' | eauto].
Qed.

Lemma consistent_ok (a : Assignment) :
  fits a -> exists b, consistent cw a = Ok b.
Proof.
  intros F. unfold consistent.
  destruct (negb (List.length a =? List.length (word_set (values a))));
    [eauto|].
  assert (H : forall vars, (forall v, In v vars -> In v (keys a)) ->
            exists b, consistent_loop cw a vars = Ok b).
  { induction vars as [|var rest IH]; intros Hk; simpl; [eauto|].
    assert (Iv : lookup var a <> None)
      by (apply lookup_In_keys, Hk; now left).
    destruct (lookup var a) as [word|] eqn:Lv; [|congruence].
    destruct (Nat.eqb_spec (String.length word) (Var.length var)) as [E|E];
      simpl; [|eauto].
    destruct (neighbors_agree_ok a var word (neighbors cw var) F E)
      as (b & Hb); [auto|].
    rewrite Hb. destruct b; [|eauto].
    apply IH. intros v I. apply Hk. now right. }
  apply H. auto.
Qed.

Lemma count_conflicts_ok var n word nws i j :
  overlaps cw var n = Some (i, j) -> i < String.length word ->
  (forall nw, In nw nws -> j < String.length nw) ->
  forall e, exists r, count_conflicts cw var n word nws e = Ok r.
Proof.
  intros O Hi. induction nws as [|nw rest IH]; intros Hj e; simpl; [eauto|].
  rewrite O.
  destruct (get_in_range word i Hi) as (c1 & G1).
  destruct (get_in_range nw j (Hj nw (or_introl eq_refl))) as (c2 & G2).
  rewrite G1, G2. apply IH. intros w I. apply Hj. now right.
Qed.

Section Store.
Variable d : Domains.
Hypothesis has_slots : forall v, In v (variables cw) -> lookup v d <> None.
Hypothesis store_fits : lengths_fit d.

Lemma count_eliminated_ok var (a : Assignment) word ns :
  String.length word = Var.length var ->
  (forall n, In n ns -> In n (neighbors cw var)) ->
  forall e, exists r, count_eliminated cw var a word ns e d = Ok (r, d).
Proof.
  intros L. induction ns as [|n rest IH]; intros Hn e; simpl.
  - exists e. reflexivity.
  - assert (IH' : forall e', exists r,
                count_eliminated cw var a word rest e' d = Ok (r, d))
      by (apply IH; intros m I; apply Hn; now right).
    destruct (mem n a); [apply IH'|].
    destruct (proj1 (neighbors_In cw var n) (Hn n (or_introl eq_refl)))
      as (In_ & _ & O).
    destruct (overlaps cw var n) as [[i j]|] eqn:E; [|congruence].
    destruct (proj1 wf var n i j E) as [Hi Hj].
    destruct (lookup n d) as [nws|] eqn:Ln; [|now apply has_slots in In_].
    destruct (count_conflicts_ok var n word nws i j E) with (e := e)
      as (r1 & C).
    { lia. }
    { intros nw I. rewrite (store_fits n nws nw Ln I). exact Hj. }
    unfold bind at 1, dom_get. rewrite Ln.
    unfold bind at 1, lift. rewrite C. apply IH'.
Qed.

Lemma eliminations_loop_ok var (a : Assignment) ws :
  (forall w, In w ws -> String.length w = Var.length var) ->
  forall acc, exists r,
    eliminations_loop cw var a (neighbors cw var) ws acc d = Ok (r, d).
Proof.
  induction ws as [|word rest IH]; intros Hw acc; simpl.
  - exists acc. reflexivity.
  - destruct (count_eliminated_ok var a word (neighbors cw var)) with (e := 0)
      as (r1 & C); [apply Hw; now left | auto |].
    unfold bind at 1. rewrite C. apply IH. intros w I. apply Hw. now right.
Qed.

Lemma order_domain_values_ok var (a : Assignment) :
  In var (variables cw) ->
  exists vals, order_domain_values cw var a d = Ok (vals, d) /\
               forall w, In w vals -> String.length w = Var.length var.
Proof.
  intros Iv.
  destruct (lookup var d) as [ws|] eqn:Lv; [|now apply has_slots in Iv].
  destruct (eliminations_loop_ok var a ws) with (acc := @nil (string * nat))
    as (r & E); [intros w I; exact (store_fits var ws w Lv I)|].
  exists (map fst (sort_by_count r)). split.
  - unfold order_domain_values, bind at 1, dom_get. rewrite Lv.
    unfold bind at 1. rewrite E. reflexivity.
  - intros w I. apply in_map_iff in I. destruct I as ([w' n] & <- & I).
    apply (Permutation_in _ (Permutation_sym (sort_by_count_perm r))) in I.
    rewrite (eliminations_loop_Ok cw var a d ws [] r d E) in I.
    simpl in I. apply in_map_iff in I. destruct I as (w0 & [= <- _] & I).
    exact (store_fits var ws w0 Lv I).
Qed.

(** A call that neither raises nor leaves a word of the wrong length. *)
Lemma try_values_safe recurse var :
  (forall a, fits a ->
     (forall e, recurse a d <> Raise e) /\
     (forall r a' d', recurse a d = Ok ((r, a'), d') -> d' = d /\ fits a')) ->
  forall vals cur,
    (forall w, In w vals -> String.length w = Var.length var) -> fits cur ->
    (forall e, try_values cw recurse var vals cur d <> Raise e) /\
    (forall r a' d', try_values cw recurse var vals cur d = Ok ((r, a'), d') ->
       d' = d /\ fits a').
Proof.
  intros Hrec. induction vals as [|value rest IH]; intros cur Hw Fc; simpl.
  - split; [discriminate|]. intros r a' d' [= <- <- <-]. auto.
  - assert (Hw' : forall w, In w rest -> String.length w = Var.length var)
      by (intros w I; apply Hw; now right).
    assert (F1 : fits (update var value cur))
      by (apply fits_update; [exact Fc | apply Hw; now left]).
    destruct (consistent_ok _ F1) as (ok & C).
    unfold bind at 1, lift. rewrite C.
    destruct ok; [|now apply IH].
    destruct (Hrec _ F1) as [Hnr Hok].
    unfold bind.
    destruct (recurse (update var value cur) d) as [[[r1 a1] d1]| e1 |] eqn:R.
    + destruct (Hok r1 a1 d1 eq_refl) as [-> F2]. simpl.
      destruct r1 as [result|].
      * split; [discriminate|]. intros r a' d' [= <- <- <-]. auto.
      * apply IH; [exact Hw' | now apply fits_pop].
    + exfalso. now apply (Hnr e1).
    + split; discriminate.
Qed.

Lemma backtrack_safe fuel : forall a,
  fits a ->
  (forall e, backtrack cw fuel a d <> Raise e) /\
  (forall r a' d', backtrack cw fuel a d = Ok ((r, a'), d') ->
     d' = d /\ fits a').
Proof.
  induction fuel as [|fuel IH]; intros a F.
  - simpl. split; discriminate.
  - destruct (assignment_complete cw a) eqn:C.
    + assert (E : backtrack cw (S fuel) a d = Ok ((Some a, a), d))
        by (simpl; rewrite C; reflexivity).
      rewrite E. split; [discriminate|]. intros r a' d' [= <- <- <-]. auto.
    + destruct (select_loop_best cw a d (variables cw) (fun _ => False)
                  None None) as (r & m & R & B).
      { simpl. split; [reflexivity | intros u []]. }
      { intros v Iv _. now apply has_slots. }
      destruct r as [var|]; simpl in B.
      * destruct B as (_ & [[] | Iv] & _ & _).
        destruct (order_domain_values_ok var a Iv) as (vals & O & Hv).
        assert (E : backtrack cw (S fuel) a d =
                    try_values cw (backtrack cw fuel) var vals a d).
        { simpl. rewrite C. unfold bind at 1, select_unassigned_variable.
          rewrite R. unfold bind. rewrite O. reflexivity. }
        rewrite E.
        exact (try_values_safe (backtrack cw fuel) var IH vals a Hv F).
      * exfalso. destruct B as (_ & Ha).
        assert (T : assignment_complete cw a = true); [|congruence].
        apply complete_loop_iff. intros v Iv.
        specialize (Ha v (or_intror Iv)). apply mem_lookup in Ha.
        destruct Ha as (w & Lw). exists w. split; [exact Lw|].
        intros ->. pose proof (F v _ (lookup_In _ _ _ _ Lw)) as Hl.
        pose proof (proj2 wf v Iv). simpl in Hl. lia.
Qed.

End Store.

(** X17 ([solve] raises no exception): on a crossword whose overlap indices
    lie inside the slots and whose slots are not empty, [solve] started on
    the initial store returns, an assignment or [None], from some amount of
    fuel on and for every iteration order of the sets: no subscript of a
    dictionary misses its key, no subscript of a word is out of range, and
    the search never finds itself without an unassigned slot. *)
Theorem solve_returns fresh :
  iterates_set fresh ->
  exists n, forall fuel, n <= fuel ->
    exists r d', solve cw fresh fuel (init_domains cw) = Ok (r, d').
Proof.
  intros Fr.
  destruct (node_loop_spec fresh Fr (keys (init_domains cw)) (init_domains cw))
    as (d1 & Hrun & Hk1 & Hdom).
  { intros v Hv. now apply lookup_In_keys. }
  assert (K1 : forall v, In v (variables cw) -> lookup v d1 <> None).
  { intros v Iv. apply lookup_In_keys. rewrite Hk1, keys_init_domains. exact Iv. }
  assert (L1 : lengths_fit d1).
  { intros v ws w Lv Iw.
    assert (I1 : In v (keys (init_domains cw))).
    { rewrite <- Hk1. apply lookup_In_keys. congruence. }
    pose proof I1 as I0. rewrite keys_init_domains in I0.
    destruct (Hdom v (words cw) (lookup_init_domains cw v I0))
      as (ws' & L & Hin & _).
    rewrite Lv in L. injection L as <-.
    destruct (Hin I1) as [_ M]. now apply M. }
  exists (S (List.length (initial_arcs cw) +
             size d1 * S (List.length (variables cw))) +
          S (List.length (variables cw))).
  intros fuel Hf.
  destruct (ac3_loop_total cw fuel (initial_arcs cw) d1) as (b & q' & d2 & A).
  { apply initial_arcs_proper. }
  { exact K1. }
  { lia. }
  destruct (ac3_frame cw fuel None d1 b q' d2 A) as [Hk2 Hsub].
  assert (K2 : forall v, In v (variables cw) -> lookup v d2 <> None).
  { intros v Iv. apply lookup_In_keys. rewrite Hk2. apply lookup_In_keys. auto. }
  assert (L2 : lengths_fit d2).
  { intros v ws w Lv Iw.
    assert (I1 : lookup v d1 <> None).
    { apply lookup_In_keys. rewrite <- Hk2. apply lookup_In_keys. congruence. }
    destruct (lookup v d1) as [ws1|] eqn:Lv1; [|congruence].
    apply (L1 v ws1 w Lv1).
    specialize (Hsub v w). rewrite (dom_of_lookup _ _ _ Lv) in Hsub.
    rewrite (dom_of_lookup _ _ _ Lv1) in Hsub. auto. }
  assert (F0 : fits []) by (intros v w []).
  destruct (backtrack_safe d2 K2 L2 fuel [] F0) as [Hnr Hok].
  unfold solve, bind at 1, enforce_node_consistency. rewrite Hrun.
  unfold bind at 1. simpl in A |- *. rewrite A.
  unfold bind.
  destruct (backtrack cw fuel [] d2) as [[[r a'] d3]| e |] eqn:B.
  - eexists; eexists; reflexivity.
  - exfalso. now apply (Hnr e).
  - exfalso. apply (backtrack_fuel cw fuel [] d2); [|exact B].
    pose proof (unassigned_le cw []). lia.
Qed.

End NeverRaises.

Section NeverRaisesExample.
Import Example.

Lemma mixed_well_formed : well_formed mixed.
Proof.
  split.
  - intros x y i j. simpl.
    destruct (Var.eqb x S && Var.eqb y D3) eqn:E1.
    + apply andb_true_iff in E1. destruct E1 as [Ex Ey].
      apply VarFacts.eqb_eq in Ex, Ey. subst x y.
      intros [= <- <-]. simpl. lia.
    + destruct (Var.eqb x D3 && Var.eqb y S) eqn:E2; [|discriminate].
      apply andb_true_iff in E2. destruct E2 as [Ex Ey].
      apply VarFacts.eqb_eq in Ex, Ey. subst x y.
      intros [= <- <-]. simpl. lia.
  - intros v [<- | [<- | []]]; simpl; lia.
Qed.

(** [solve] returns on the two crossing slots of [mixed], with sets that
    iterate in the reverse of the order of the additions. *)
Lemma solve_returns_witness :
  exists n, forall fuel, n <= fuel ->
    exists r d', solve mixed reverse_order fuel (init_domains mixed) = Ok (r, d').
Proof.
  exact (solve_returns mixed mixed_well_formed reverse_order reverse_order_ok).
Defined.

End NeverRaisesExample.
